(** * AIJack: FedAvg clients and the Paillier tensor wrapper

  A shallow embedding of
    - [src/aijack/collaborative/fedavg/client.py]
      ([FedAvgClient], [MPIFedAVGClient]) and
    - [src/aijack/defense/paillier/torch_wrapper.py] ([PaillierTensor]),
  followed by the properties of the specification that concern them.

  Python objects live in a store and are named by references, so that
  rebinding a local name, writing through a reference and sharing an object
  are three different things in the model, as they are in Python.  A method
  is a computation in a monad that threads the store and may raise. *)

From stdpp Require Import gmap strings list fin_maps.
From Stdlib Require Import QArith.
Close Scope Q_scope.

(** ** Exceptions *)

(** The exceptions raised by the two files and by what they call.  The
  specification's [UnsupportedOptimizer] and [UnsupportedOperand] are the
  code's [NotImplementedError]; [UnsupportedValueType] is its [TypeError]. *)
Inductive exn :=
| NotImplementedError (msg : string)
| TypeError (msg : string)
| AttributeError (msg : string)
| RuntimeError (msg : string)
| ValueError (msg : string)
| ShapeMismatch
| RecvBlocks
| InvalidReference (l : nat).

(** ** The torch interface *)

(** Tensors and the operations of torch the clients use.  The arithmetic is
  floating point inside torch; the clients only compose these operations,
  so they are kept abstract.
  - [tsub p q] is [p - q], [tdiv p r] is [p / r] for a Python float [r];
  - [reshape_to v p device] is
    [torch.Tensor(v).reshape(p.shape).to(device)], which raises when [v]
    does not have as many elements as [p]. *)
Class Tensors := {
tensor : Type;
scalar : Type;
tsub : tensor → tensor → tensor;
tdiv : tensor → scalar → tensor;
reshape_to : tensor → tensor → string → option tensor
}.

(** The optimizer adapters.  [aijack.collaborative.optimizer] is not among the
  sources and the specification leaves the step arithmetic out of its scope.
  - The keyword arguments handed to an adapter are a dictionary with string
    keys, kept as the list of its items in insertion order, which is the
    order [**] binds them in; [hyperparameter] is what the keys map to.
  - [rejects k kw] is what the constructor of the adapter raises on the
    keyword arguments [kw], if anything: its signature is its own.
  - A rule maps the learning rate, the keyword arguments, the step counter,
    a parameter's buffer, the parameter and its update to the new buffer and
    the new parameter. *)
Inductive OptKind := SGD | Adam.

Class OptimizerRules `{Tensors} := {
hyperparameter : Type;
buffer : Type;
rejects : OptKind → list (string * hyperparameter) → option exn;
init_buffer : OptKind → list (string * hyperparameter) → buffer;
update_rule : OptKind → scalar → list (string * hyperparameter) → nat → buffer
              → tensor → tensor → buffer * tensor
}.

Abbreviation kwargs := (list (string * hyperparameter)).

(** ** The object store *)

Module Store.

(** A reference is the allocation index of the object; a store is the
    sequence of the objects allocated so far. *)
Abbreviation loc := nat.
Abbreviation heap := list.

Section store.
Context {C : Type}.

(** A computation reads and writes the store and returns or raises; the
    store survives a raise, as Python's heap does. *)
Definition M (A : Type) : Type := heap C → heap C * (exn + A).

#[global] Instance M_ret : MRet M := λ A x h, (h, inr x).
#[global] Instance M_bind : MBind M := λ A B f m h,
  match m h with
  | (h', inr x) => f x h'
  | (h', inl e) => (h', inl e)
  end.
#[global] Instance M_fmap : FMap M := λ A B f m, x ← m; mret (f x).

Definition raise {A} (e : exn) : M A := λ h, (h, inl e).

Definition read (l : loc) : M C := λ h,
  match h !! l with
  | Some v => (h, inr v)
  | None => (h, inl (InvalidReference l))
  end.

(** The object [l] is written in place. *)
Definition write (l : loc) (v : C) : M unit := λ h,
  if decide (l < length h) then (<[l:=v]> h, inr ()) else (h, inl (InvalidReference l)).

(** A new object; its reference is one no earlier object has. *)
Definition alloc (v : C) : M loc := λ h, (h ++ [v], inr (length h)).

(** [copy.deepcopy(param)]: a new object with the same value. *)
Definition deepcopy (param : loc) : M loc := v ← read param; alloc v.

(** The values of the objects [ls], where they all exist. *)
Definition values (h : heap C) (ls : list loc) : option (list C) :=
  mapM (λ l, h !! l) ls.
End store.
Arguments M : clear implicits.
End Store.
Import Store.

(** ** The local model *)

(** [torch.nn.Module], as far as the clients use it: an ordered dictionary of
  named parameter objects. *)
Record Module_ := { named_parameters : list (string * loc) }.

(** What [download] is handed: a state dictionary or a sequence of tensors. *)
Inductive payload `{Tensors} :=
| StateDict (sd : gmap string tensor)
| TensorList (ts : list tensor).


Module Model.
Section model.
Context `{Tensors}.
Local Abbreviation M := (Store.M tensor).

Definition names (m : Module_) : list string := (named_parameters m).*1.

(** [model.parameters()] *)
Definition parameters (m : Module_) : list loc := (named_parameters m).*2.

(** [model.state_dict()]: the mapping refers to the live parameter objects. *)
Definition state_dict (m : Module_) : gmap string loc :=
  list_to_map (named_parameters m).

Fixpoint write_all (ws : list (loc * tensor)) : M unit :=
  match ws with
  | [] => mret ()
  | (l, v) :: ws' => _ ← write l v; write_all ws'
  end.

(** Modelled from the spec: [load_state_dict] belongs to torch, which is not
    among the sources.  Section 3 has it "bulk-overwrite all parameters from
    a named state mapping" and sections 4.2 and 7 have a malformed state fail
    with [ShapeMismatch], the parameters unchanged: the keys are checked
    against the parameter names, and only then is every parameter
    overwritten in place. *)
Definition load_state_dict (m : Module_) (g : payload) : M unit :=
  match g with
  | StateDict sd =>
      if decide (dom sd = list_to_set (names m)) then
        match mapM (λ '(n, l), (λ v, (l, v)) <$> sd !! n) (named_parameters m) with
        | Some ws => write_all ws
        | None => raise ShapeMismatch
        end
      else raise ShapeMismatch
  | TensorList _ => raise ShapeMismatch
  end.
End model.
End Model.
Import Model.

(** ** The optimizer adapters *)

Module FLOptimizer.
Section optimizer.
Context `{OptimizerRules}.
Local Abbreviation M := (Store.M tensor).

(** An adapter holds the parameter objects of the model it was built for, its
    hyperparameters, a step counter and one buffer per parameter. *)
Record t := {
  kind : OptKind;
  parameters : list loc;
  lr : scalar;
  hyper : kwargs;
  counter : nat;
  buffers : list buffer
}.

(** The adapter a constructor call leaves: bound to the parameter objects,
    its counter at zero, one initial buffer per parameter. *)
Definition new (k : OptKind) (ps : list loc) (r : scalar) (kw : kwargs) : t :=
  {| kind := k; parameters := ps; lr := r; hyper := kw; counter := 0;
     buffers := replicate (length ps) (init_buffer k kw) |}.

(** The constructors [SGDFLOptimizer] and [AdamFLOptimizer], called with the
    parameters, the learning rate and the keyword arguments. *)
Definition __init__ (k : OptKind) (ps : list loc) (r : scalar) (kw : kwargs) : M t :=
  match rejects k kw with
  | Some e => raise e
  | None => mret (new k ps r kw)
  end.

Fixpoint step_loop (o : t) (work : list (loc * buffer * tensor)) : M (list buffer) :=
  match work with
  | [] => mret []
  | (param, b, g) :: rest =>
      p ← read param;
      let '(b', p') := update_rule (kind o) (lr o) (hyper o) (counter o) b p g in
      _ ← write param p';
      bs ← step_loop o rest;
      mret (b' :: bs)
  end.

(** Modelled from the spec: [aijack.collaborative.optimizer] is not among the
    sources.  Section 4.1: [step(update)] takes "an ordered sequence of tensors
    aligned with the parameter sequence" and "mutates each parameter in place
    according to the adapter's update rule", keeping its buffers between
    calls; sections 4.2 and 7: an update whose length disagrees with the
    parameter sequence fails with [ShapeMismatch], nothing written. *)
Definition step (o : t) (update : payload) : M t :=
  match update with
  | TensorList gs =>
      if decide (length gs = length (parameters o)) then
        bs ← step_loop o (zip (zip (parameters o) (buffers o)) gs);
        mret {| kind := kind o; parameters := parameters o; lr := lr o;
                hyper := hyper o; counter := S (counter o); buffers := bs |}
      else raise ShapeMismatch
  | StateDict _ => raise ShapeMismatch
  end.
End optimizer.
End FLOptimizer.

(** ** [FedAvgClient] *)

Module FedAvgClient.
Section client.
Context `{OptimizerRules}.
Local Abbreviation M := (Store.M tensor).

(** The attribute [optimizer_for_gloal_grad]: never assigned (server-side
    update), assigned [None], or an adapter. *)
Inductive optimizer_attr :=
  | Unset
  | IsNone
  | Adapter (o : FLOptimizer.t).

Record t := {
  model : Module_;
  user_id : Z;
  lr : scalar;
  send_gradient : bool;
  server_side_update : bool;
  device : string;
  optimizer_for_gloal_grad : optimizer_attr;
  prev_parameters : list loc;
  initialized : bool
}.

(** A call [f(a, k=v, **d)], where [by_position] are the parameters of [f]
    that the call fills by position and [by_keyword] the keywords it writes
    out.  Python binds the keys of [d] in order; the first one that names an
    argument the call binds itself raises [TypeError], before the body of
    [f] runs. *)
Definition unpack (callee : string) (by_position by_keyword : list string)
    (d : kwargs) : M unit :=
  match list_find (λ k, k ∈ by_position ++ by_keyword) d.*1 with
  | Some (_, k) =>
      raise (TypeError
        (callee ++ "() got multiple values for "
           ++ (if decide (k ∈ by_keyword) then "keyword argument '" else "argument '")
           ++ k ++ "'"))
  | None => mret ()
  end.

(** The body of the method, [kw] being what [**kwargs] has collected.  Both
    adapters are called with [lr=self.lr] next to [**kwargs]. *)
Definition _setup_optimizer_for_global_grad (model : Module_) (lr : scalar)
    (optimizer_type : string) (kw : kwargs) : M optimizer_attr :=
  if decide (optimizer_type = "sgd") then
    _ ← unpack "SGDFLOptimizer" [] ["lr"] kw;
    Adapter <$> FLOptimizer.__init__ SGD (Model.parameters model) lr kw
  else if decide (optimizer_type = "adam") then
    _ ← unpack "AdamFLOptimizer" [] ["lr"] kw;
    Adapter <$> FLOptimizer.__init__ Adam (Model.parameters model) lr kw
  else if decide (optimizer_type = "none") then
    mret IsNone
  else
    raise (NotImplementedError
      (optimizer_type ++ " is not supported. You can specify `sgd`, `adam`, or `none`.")).

(** [BaseClient.__init__] (not among the sources) keeps [model] and
    [user_id]; the rest follows the constructor line by line.  The method
    above is called with [self] and [optimizer_type] bound and the dictionary
    unpacked next to them. *)
Definition __init__ (model : Module_) (user_id : Z) (lr : scalar)
    (send_gradient : bool) (optimizer_type_for_global_grad : string)
    (server_side_update : bool) (optimizer_kwargs_for_global_grad : kwargs)
    (device : string) : M t :=
  opt ← (if negb server_side_update then
           _ ← unpack "FedAvgClient._setup_optimizer_for_global_grad"
                 ["self"; "optimizer_type"] [] optimizer_kwargs_for_global_grad;
           _setup_optimizer_for_global_grad model lr
             optimizer_type_for_global_grad optimizer_kwargs_for_global_grad
         else mret Unset);
  prev ← mapM deepcopy (Model.parameters model);
  mret {| model := model; user_id := user_id; lr := lr;
          send_gradient := send_gradient;
          server_side_update := server_side_update; device := device;
          optimizer_for_gloal_grad := opt;
          prev_parameters := prev; initialized := false |}.

Definition upload_parameters (self : t) : M (gmap string loc) :=
  mret (state_dict (model self)).

Definition upload_gradients (self : t) : M (list tensor) :=
  mapM (λ '(param, prev_param),
          p ← read param; q ← read prev_param; mret (tdiv (tsub q p) (lr self)))
       (zip (Model.parameters (model self)) (prev_parameters self)).

Definition upload (self : t) : M (list tensor + gmap string loc) :=
  if send_gradient self then inl <$> upload_gradients self
  else inr <$> upload_parameters self.

(** The loop of [revert].  The test [param is not None] holds of every
    parameter object; [param = prev_param] then binds the loop's local name
    [param] to the snapshot object.  No object is written. *)
Fixpoint revert_loop (pairs : list (loc * loc)) : M unit :=
  match pairs with
  | [] => mret ()
  | (param, prev_param) :: rest =>
      let param := prev_param in
      revert_loop rest
  end.

Definition revert (self : t) : M unit :=
  revert_loop (zip (Model.parameters (model self)) (prev_parameters self)).

Definition download (self : t) (new_global_model : payload) : M t :=
  opt ← (if server_side_update self || negb (initialized self) then
           _ ← load_state_dict (model self) new_global_model;
           mret (optimizer_for_gloal_grad self)
         else
           _ ← revert self;
           match optimizer_for_gloal_grad self with
           | Adapter o => Adapter <$> FLOptimizer.step o new_global_model
           | IsNone =>
               raise (AttributeError "'NoneType' object has no attribute 'step'")
           | Unset =>
               raise (AttributeError
                 "'FedAvgClient' object has no attribute 'optimizer_for_gloal_grad'")
           end);
  let initialized' := if negb (initialized self) then true else initialized self in
  prev ← mapM deepcopy (Model.parameters (model self));
  mret {| model := model self; user_id := user_id self; lr := lr self;
          send_gradient := send_gradient self;
          server_side_update := server_side_update self; device := device self;
          optimizer_for_gloal_grad := opt;
          prev_parameters := prev; initialized := initialized' |}.
End client.
End FedAvgClient.

(** ** The reconciliation step as the specification words it *)

Module Specified.
Section specified.
Context `{OptimizerRules}.
Local Abbreviation M := (Store.M tensor).
Import FedAvgClient.

(** Section 4.2, step 2: "assign each parameter back to its snapshot value,
    elementwise, in place". *)
Fixpoint revert_loop (pairs : list (loc * loc)) : M unit :=
  match pairs with
  | [] => mret ()
  | (param, prev_param) :: rest =>
      v ← read prev_param;
      _ ← write param v;
      revert_loop rest
  end.

Definition revert (self : t) : M unit :=
  revert_loop (zip (Model.parameters (model self)) (prev_parameters self)).

(** [FedAvgClient.download] with this revert in the place of the code's. *)
Definition download (self : t) (new_global_model : payload) : M t :=
  opt ← (if server_side_update self || negb (initialized self) then
           _ ← load_state_dict (model self) new_global_model;
           mret (optimizer_for_gloal_grad self)
         else
           _ ← revert self;
           match optimizer_for_gloal_grad self with
           | Adapter o => Adapter <$> FLOptimizer.step o new_global_model
           | IsNone =>
               raise (AttributeError "'NoneType' object has no attribute 'step'")
           | Unset =>
               raise (AttributeError
                 "'FedAvgClient' object has no attribute 'optimizer_for_gloal_grad'")
           end);
  let initialized' := if negb (initialized self) then true else initialized self in
  prev ← mapM deepcopy (Model.parameters (model self));
  mret {| model := model self; user_id := user_id self; lr := lr self;
          send_gradient := send_gradient self;
          server_side_update := server_side_update self; device := device self;
          optimizer_for_gloal_grad := opt;
          prev_parameters := prev; initialized := initialized' |}.
End specified.
End Specified.

(** ** [MPIFedAVGClient] *)

(** Modelled from the spec: the tags of [aijack.collaborative.core.utils] are
    not among the sources; section 4.3 names the two message kinds. *)
Inductive Tag := GRADIENTS_TAG | PARAMETERS_TAG.

#[global] Instance Tag_eq_dec : EqDecision Tag.
Proof. solve_decision. Defined.

Module Comm.
Section comm.
Context `{Tensors}.

(** The communicator, at its interface: what was sent, in order, and what is
    waiting to be received. *)
Record t := {
  sent : list (list tensor * Z * Tag);
  inbox : list (Tag * list tensor)
}.

(** [comm.send(payload, dest=dest, tag=tag)] *)
Definition send (comm : t) (msg : list tensor) (dest : Z) (tag : Tag) : t :=
  {| sent := sent comm ++ [(msg, dest, tag)]; inbox := inbox comm |}.

Fixpoint take_first (tag : Tag) (q : list (Tag * list tensor))
  : option (list tensor * list (Tag * list tensor)) :=
  match q with
  | [] => None
  | (tg, msg) :: q' =>
      if decide (tg = tag) then Some (msg, q')
      else '(m, r) ← take_first tag q'; Some (m, (tg, msg) :: r)
  end.

(** [comm.recv(tag=tag)]: the oldest waiting message with this tag; with none
    waiting the call does not return. *)
Definition recv (comm : t) (tag : Tag) : option (list tensor * t) :=
  '(msg, q) ← take_first tag (inbox comm);
  Some (msg, {| sent := sent comm; inbox := q |}).
End comm.
End Comm.

Module MPIFedAVGClient.
Section client.
Context `{Tensors}.
Local Abbreviation M := (Store.M tensor).

(** [gradients] is [None] until the first [upload_gradient] assigns it. *)
Record t := {
  comm : Comm.t;
  model : Module_;
  user_id : Z;
  lr : scalar;
  device : string;
  prev_parameters : list loc;
  gradients : option (list tensor)
}.

Definition __init__ (comm : Comm.t) (model : Module_) (user_id : Z) (lr : scalar)
    (device : string) : M t :=
  prev ← mapM deepcopy (Model.parameters model);
  mret {| comm := comm; model := model; user_id := user_id; lr := lr;
          device := device; prev_parameters := prev; gradients := None |}.

(** The method returns [None]; the model returns the client as the call
    leaves it. *)
Definition upload_gradient (self : t) (destination_id : Z) : M t :=
  gs ← mapM (λ '(param, prev_param),
               p ← read param; q ← read prev_param; mret (tdiv (tsub q p) (lr self)))
            (zip (Model.parameters (model self)) (prev_parameters self));
  mret {| comm := Comm.send (comm self) gs destination_id GRADIENTS_TAG;
          model := model self; user_id := user_id self; lr := lr self;
          device := device self; prev_parameters := prev_parameters self;
          gradients := Some gs |}.

Definition upload (self : t) : M t := upload_gradient self 0.

Fixpoint download_loop (dev : string) (pairs : list (loc * tensor)) : M unit :=
  match pairs with
  | [] => mret ()
  | (params, new_params) :: rest =>
      p ← read params;
      match reshape_to new_params p dev with
      | Some v => _ ← write params v; download_loop dev rest
      | None => raise (RuntimeError "shape is invalid for input")
      end
  end.

Definition download (self : t) : M t :=
  match Comm.recv (comm self) PARAMETERS_TAG with
  | None => raise RecvBlocks
  | Some (new_parameters, comm') =>
      _ ← download_loop (device self)
            (zip (Model.parameters (model self)) new_parameters);
      mret {| comm := comm'; model := model self; user_id := user_id self;
              lr := lr self; device := device self;
              prev_parameters := prev_parameters self;
              gradients := gradients self |}
  end.
End client.
End MPIFedAVGClient.

(** ** numpy arrays *)

(** The Python values the wrapper computes with.  Paillier arithmetic is
    supplied from outside: [num] are Python's [int] and [float] values,
    [elem] is what an array holds (numbers and ciphertexts), and [x + y],
    [x * y] on them are whatever the operand classes define, [None] where
    Python raises [TypeError].  [is_number e] tells whether torch takes the
    object [e] for a number, as it does a numpy scalar and does not a
    ciphertext. *)
Class Scalars := {
  num : Type;
  elem : Type;
  of_num : num → elem;
  is_number : elem → bool;
  num_neg_one : num;
  num_zero : num;
  num_mul : num → num → num;
  elem_add : elem → elem → option elem;
  elem_mul : elem → elem → option elem;
  secret_key : Type;
  decrypt2float : secret_key → elem → exn + num
}.

Module Np.
Section np.
Context `{Scalars}.

(** A rectangular array: its shape and its elements in row-major order. *)
Record ndarray := { shape : list nat; data : list elem }.

(** What an operator of numpy returns: an array, or a scalar when the result
    has no dimension. *)
Inductive npval :=
  | Arr (a : ndarray)
  | Scal (e : elem).

Definition size (s : list nat) : nat := foldr Nat.mul 1 s.

Definition as_array (v : npval) : ndarray :=
  match v with
  | Arr a => a
  | Scal e => {| shape := []; data := [e] |}
  end.

(** Broadcasting of two shapes, last dimension first: equal dimensions, or
    one of them 1; a missing dimension counts as 1. *)
Fixpoint broadcast_rev (s1 s2 : list nat) : option (list nat) :=
  match s1, s2 with
  | [], s => Some s
  | s, [] => Some s
  | d1 :: r1, d2 :: r2 =>
      r ← broadcast_rev r1 r2;
      if decide (d1 = d2) then Some (d1 :: r)
      else if decide (d1 = 1) then Some (d2 :: r)
      else if decide (d2 = 1) then Some (d1 :: r)
      else None
  end.

Definition broadcast_shapes (s1 s2 : list nat) : option (list nat) :=
  reverse <$> broadcast_rev (reverse s1) (reverse s2).

Fixpoint chunks (k n : nat) (d : list elem) : list (list elem) :=
  match n with
  | 0 => []
  | S n' => take k d :: chunks k n' (drop k d)
  end.

(** The elements of an array of shape [s] seen at shape [t], where [s] has
    as many dimensions as [t] and each is equal to [t]'s or 1. *)
Fixpoint expand (s t : list nat) (d : list elem) : list elem :=
  match s, t with
  | n :: s', m :: t' =>
      if decide (n = m) then concat (expand s' t' <$> chunks (size s') n d)
      else concat (replicate m (expand s' t' d))
  | _, _ => d
  end.

Definition broadcast_to (a : ndarray) (t : list nat) : list elem :=
  expand (replicate (length t - length (shape a)) 1 ++ shape a) t (data a).

(** An elementwise operator with broadcasting. *)
Definition binop (f : elem → elem → option elem) (x y : npval) : exn + npval :=
  let a := as_array x in
  let b := as_array y in
  match broadcast_shapes (shape a) (shape b) with
  | None => inl (ValueError "operands could not be broadcast together")
  | Some s =>
      match mapM (λ '(p, q), f p q) (zip (broadcast_to a s) (broadcast_to b s)) with
      | None => inl (TypeError "unsupported operand type(s)")
      | Some d =>
          match s, d with
          | [], [e] => inr (Scal e)
          | _, _ => inr (Arr {| shape := s; data := d |})
          end
      end
  end.

(** A Python list, possibly of lists. *)
Inductive nested :=
  | Item (e : elem)
  | Nested (xs : list nested).

Fixpoint nested_shape (x : nested) : list nat :=
  match x with
  | Item _ => []
  | Nested xs => length xs :: match xs with [] => [] | y :: _ => nested_shape y end
  end.

Fixpoint has_shape (s : list nat) (x : nested) : bool :=
  match x, s with
  | Item _, [] => true
  | Nested xs, n :: s' => bool_decide (length xs = n) && forallb (has_shape s') xs
  | _, _ => false
  end.

Fixpoint flatten (x : nested) : list elem :=
  match x with
  | Item e => [e]
  | Nested xs => flat_map flatten xs
  end.

(** [np.array(xs)] for a list [xs]: the list has to be rectangular. *)
Definition array (xs : list nested) : exn + ndarray :=
  let s := nested_shape (Nested xs) in
  if has_shape s (Nested xs) then inr {| shape := s; data := flatten (Nested xs) |}
  else inl (ValueError "setting an array element with a sequence")%string.
End np.
End Np.

(** ** [PaillierTensor] *)

Module PaillierTensor.
Section wrapper.
Context `{Scalars}.
Import Np.

(** The objects of the store: numpy arrays, torch tensors (with their data)
    and wrapper instances, whose attribute [_paillier_np_array] refers to an
    array object. *)
Inductive obj :=
  | ONdarray (a : ndarray)
  | OTensor (a : ndarray)
  | OPaillierTensor (_paillier_np_array : loc).

(** Python values: numbers, lists, references to objects, any other scalar
    object (a ciphertext, a numpy scalar), and the constant [NotImplemented]. *)
Inductive pyval :=
  | PyInt (x : num)
  | PyFloat (x : num)
  | PyList (xs : list nested)
  | PyRef (l : loc)
  | PyScalar (e : elem)
  | NotImplemented.

Inductive pytype := Tint | Tfloat | Tlist | Tndarray | TTensor | TPaillierTensor | Tobject.

#[global] Instance pytype_eq_dec : EqDecision pytype.
Proof. solve_decision. Defined.

Definition repr (ty : pytype) : string :=
  match ty with
  | Tint => "<class 'int'>"
  | Tfloat => "<class 'float'>"
  | Tlist => "<class 'list'>"
  | Tndarray => "<class 'numpy.ndarray'>"
  | TTensor => "<class 'torch.Tensor'>"
  | TPaillierTensor => "<class 'PaillierTensor'>"
  | Tobject => "<class 'object'>"
  end.

Local Abbreviation M := (Store.M obj).

(** [type(v)] *)
Definition type (v : pyval) : M pytype :=
  match v with
  | PyInt _ => mret Tint
  | PyFloat _ => mret Tfloat
  | PyList _ => mret Tlist
  | PyRef l =>
      o ← read l;
      mret (match o with
            | ONdarray _ => Tndarray
            | OTensor _ => TTensor
            | OPaillierTensor _ => TPaillierTensor
            end)
  | PyScalar _ | NotImplemented => mret Tobject
  end.

(** *** Python's operators on these values *)

Definition as_npval (v : pyval) : M npval :=
  match v with
  | PyInt x | PyFloat x => mret (Scal (of_num x))
  | PyScalar e => mret (Scal e)
  | PyRef l =>
      o ← read l;
      match o with
      | ONdarray a => mret (Arr a)
      | _ => raise (TypeError "unsupported operand type(s)")
      end
  | _ => raise (TypeError "unsupported operand type(s)")
  end.

(** An operator of numpy: the operands are read, the result is a new array
    object (or a scalar); no operand is written. *)
Definition np_operator (f : elem → elem → option elem) (x y : pyval) : M pyval :=
  a ← as_npval x;
  b ← as_npval y;
  match binop f a b with
  | inl e => raise e
  | inr (Arr r) => PyRef <$> alloc (ONdarray r)
  | inr (Scal e) => mret (PyScalar e)
  end.

(** [x + y] with an array on the left. *)
Definition py_add (x y : pyval) : M pyval := np_operator elem_add x y.

(** [x * y]: numbers multiply as numbers (the product of an [int] and a
    [float] is a [float]), anything else goes through numpy. *)
Definition py_mul (x y : pyval) : M pyval :=
  match x, y with
  | PyInt a, PyInt b => mret (PyInt (num_mul a b))
  | PyInt a, PyFloat b | PyFloat a, PyInt b | PyFloat a, PyFloat b =>
      mret (PyFloat (num_mul a b))
  | _, _ => np_operator elem_mul x y
  end.

(** [v._paillier_np_array] *)
Definition _paillier_np_array_of (v : pyval) : M pyval :=
  match v with
  | PyRef l =>
      o ← read l;
      match o with
      | OPaillierTensor arr => mret (PyRef arr)
      | _ => raise (AttributeError "object has no attribute '_paillier_np_array'")
      end
  | _ => raise (AttributeError "object has no attribute '_paillier_np_array'")
  end.

(** *** The class *)

Definition __init__ (paillier_array : pyval) : M pyval :=
  ty ← type paillier_array;
  if decide (ty = Tlist) then
    match paillier_array with
    | PyList xs =>
        match array xs with
        | inr a => arr ← alloc (ONdarray a); PyRef <$> alloc (OPaillierTensor arr)
        | inl e => raise e
        end
    | _ => raise (TypeError (repr ty ++ " is not supported."))
    end
  else if decide (ty = Tndarray) then
    match paillier_array with
    | PyRef arr => PyRef <$> alloc (OPaillierTensor arr)
    | _ => raise (TypeError (repr ty ++ " is not supported."))
    end
  else raise (TypeError (repr ty ++ " is not supported.")).

Definition __repr__ (self : pyval) : M string := mret "PaillierTensor".

(** [np.vectorize(f)(a)] refuses an array without elements; [torch.Tensor]
    makes a new tensor of the decrypted numbers. *)
Definition decypt (self : pyval) (sk : secret_key) : M pyval :=
  arr ← _paillier_np_array_of self;
  v ← as_npval arr;
  let a := as_array v in
  if decide (data a = []) then
    raise (ValueError "cannot call `vectorize` on size 0 inputs unless `otypes` is set")
  else
    (fix go (es : list elem) (acc : list elem) : M pyval :=
       match es with
       | [] => PyRef <$> alloc (OTensor {| shape := shape a; data := reverse acc |})
       | e :: es' =>
           match decrypt2float sk e with
           | inr x => go es' (of_num x :: acc)
           | inl err => raise err
           end
       end) (data a) [].

(** [torch.zeros(shape)] is a new tensor. *)
Definition tensor (self : pyval) (sk : option secret_key) : M pyval :=
  match sk with
  | Some k => decypt self k
  | None =>
      arr ← _paillier_np_array_of self;
      v ← as_npval arr;
      let s := shape (as_array v) in
      PyRef <$> alloc (OTensor {| shape := s; data := replicate (size s) (of_num num_zero) |})
  end.

Definition numpy (self : pyval) : M pyval := _paillier_np_array_of self.

(** [other.numpy()] for [other] a [torch.Tensor] or a [PaillierTensor]: a
    tensor hands out an array object over its data, the wrapper its own
    array. *)
Definition numpy_method (other : pyval) : M pyval :=
  match other with
  | PyRef l =>
      o ← read l;
      match o with
      | OTensor a => PyRef <$> alloc (ONdarray a)
      | OPaillierTensor _ => numpy other
      | ONdarray _ => raise (AttributeError "'numpy.ndarray' object has no attribute 'numpy'")
      end
  | _ => raise (AttributeError "object has no attribute 'numpy'")
  end.

Definition add (input other : pyval) : M pyval :=
  ty ← type other;
  if bool_decide (ty ∈ [Tint; Tfloat]) then
    a ← _paillier_np_array_of input;
    r ← py_add a other;
    __init__ r
  else if bool_decide (ty ∈ [TTensor; TPaillierTensor]) then
    a ← _paillier_np_array_of input;
    o ← numpy_method other;
    r ← py_add a o;
    __init__ r
  else raise (NotImplementedError (repr ty ++ " is not supported.")).

Definition sub (input other : pyval) : M pyval :=
  ty ← type other;
  if bool_decide (ty ∈ [Tint; Tfloat]) then
    a ← _paillier_np_array_of input;
    m ← py_mul (PyInt num_neg_one) other;
    r ← py_add a m;
    __init__ r
  else if bool_decide (ty ∈ [TTensor; TPaillierTensor]) then
    a ← _paillier_np_array_of input;
    o ← numpy_method other;
    m ← py_mul (PyInt num_neg_one) o;
    r ← py_add a m;
    __init__ r
  else raise (NotImplementedError (repr ty ++ " is not supported.")).

Definition mul (input other : pyval) : M pyval :=
  ty ← type other;
  if bool_decide (ty ∈ [Tint; Tfloat]) then
    a ← _paillier_np_array_of input;
    r ← py_mul a other;
    __init__ r
  else if bool_decide (ty ∈ [TTensor; TPaillierTensor]) then
    a ← _paillier_np_array_of input;
    o ← numpy_method other;
    r ← py_mul a o;
    __init__ r
  else raise (NotImplementedError (repr ty ++ " is not supported.")).

(** *** Dispatch *)

Inductive torch_function := torch_add | torch_sub | torch_mul | torch_other (name : string).

#[global] Instance torch_function_eq_dec : EqDecision torch_function.
Proof. solve_decision. Defined.

(** A registration table: a dictionary from torch functions to overrides. *)
Definition table := torch_function → option (pyval → pyval → M pyval).

(** [@implements(torch_function)]: [HANDLED_FUNCTIONS[torch_function] = func] *)
Definition implements (torch_function_ : torch_function)
    (func : pyval → pyval → M pyval) (handled : table) : table :=
  λ g, if decide (g = torch_function_) then Some func else handled g.

(** The table once the class body has run. *)
Definition HANDLED_FUNCTIONS : table :=
  implements torch_mul mul (implements torch_sub sub (implements torch_add add (λ _, None))).

(** [issubclass(t, (torch.Tensor, PaillierTensor))] *)
Definition issubclass (ty : pytype) : bool :=
  bool_decide (ty ∈ [TTensor; TPaillierTensor]).

Definition __torch_function__ (func : torch_function) (types : list pytype)
    (args : list pyval) : M pyval :=
  match HANDLED_FUNCTIONS func with
  | Some impl =>
      if forallb issubclass types then
        match args with
        | [input; other] => impl input other
        | _ => raise (TypeError "takes 2 positional arguments")
        end
      else mret NotImplemented
  | None => mret NotImplemented
  end.

(** What the argument parser of [torch.add], [torch.sub] and [torch.mul]
    takes for an operand: a tensor, an object whose class defines
    [__torch_function__], or a number.  A numpy array, a list or any other
    object is refused. *)
Definition parses (v : pyval) : M bool :=
  match v with
  | PyInt _ | PyFloat _ => mret true
  | PyScalar e => mret (is_number e)
  | PyRef l =>
      o ← read l;
      mret (match o with
            | OTensor _ | OPaillierTensor _ => true
            | ONdarray _ => false
            end)
  | PyList _ | NotImplemented => mret false
  end.

(** [torch.add(self, other)] and the like, called with a wrapper among the
    arguments, as torch has it: the arguments are parsed, and one that is
    refused raises [TypeError] before anything is dispatched; then the types
    of the arguments that override [__torch_function__] are collected, the
    override is called, and [NotImplemented] becomes a [TypeError].  (For a
    torch function other than the three the parser is another one; the call
    ends in a [TypeError] either way.) *)
Definition torch_call (func : torch_function) (args : list pyval) : M pyval :=
  ok ← mapM parses args;
  if forallb id ok then
    tys ← mapM type args;
    r ← __torch_function__ func (filter (λ ty, ty = TPaillierTensor) (remove_dups tys)) args;
    match r with
    | NotImplemented => raise (TypeError "no implementation found")
    | _ => mret r
    end
  else raise (TypeError "received an invalid combination of arguments").

Definition __add__ (self other : pyval) : M pyval := torch_call torch_add [self; other].
Definition __sub__ (self other : pyval) : M pyval := torch_call torch_sub [self; other].
Definition __mul__ (self other : pyval) : M pyval := torch_call torch_mul [self; other].
End wrapper.
End PaillierTensor.

(** ** Wrappers, operands and what the arithmetic computes *)

Module Wrapped.
Section wrapped.
Context `{Scalars}.
Import Np PaillierTensor.
Local Abbreviation M := (Store.M obj).

Inductive arith := Add | Sub | Mul.

Definition method (op : arith) : pyval → pyval → M pyval :=
  match op with Add => add | Sub => sub | Mul => mul end.

Definition operator (op : arith) : pyval → pyval → M pyval :=
  match op with Add => __add__ | Sub => __sub__ | Mul => __mul__ end.

(** [v] is an encrypted array of the store, over the array [a]. *)
Definition is_wrapper (h : heap obj) (v : pyval) (a : ndarray) : Prop :=
  ∃ l arr, v = PyRef l ∧ h !! l = Some (OPaillierTensor arr)
           ∧ h !! arr = Some (ONdarray a).

(** The second operands the arithmetic supports: a plaintext scalar ([int]
    or [float]), a plaintext array (a [torch.Tensor]), an encrypted array. *)
Inductive operand :=
  | Number (is_float : bool) (x : num)
  | Array (t : ndarray).

Inductive denotes (h : heap obj) : pyval → operand → Prop :=
  | denotes_int x : denotes h (PyInt x) (Number false x)
  | denotes_float x : denotes h (PyFloat x) (Number true x)
  | denotes_tensor l t :
      h !! l = Some (OTensor t) → denotes h (PyRef l) (Array t)
  | denotes_wrapper l arr t :
      h !! l = Some (OPaillierTensor arr) → h !! arr = Some (ONdarray t) →
      denotes h (PyRef l) (Array t).

Definition operand_np (b : operand) : npval :=
  match b with
  | Number _ x => Scal (of_num x)
  | Array t => Arr t
  end.

Definition operand_shape (b : operand) : list nat := shape (as_array (operand_np b)).

(** The operand scaled by -1, as a value of the same kind: a number, a new
    tensor, a new encrypted array. *)
Definition negated (other : pyval) : M pyval :=
  ty ← type other;
  if bool_decide (ty ∈ [Tint; Tfloat]) then py_mul (PyInt num_neg_one) other
  else if bool_decide (ty = TTensor) then
    o ← numpy_method other;
    m ← py_mul (PyInt num_neg_one) o;
    v ← as_npval m;
    PyRef <$> alloc (OTensor (as_array v))
  else if bool_decide (ty = TPaillierTensor) then
    o ← numpy_method other;
    m ← py_mul (PyInt num_neg_one) o;
    v ← as_npval m;
    arr ← alloc (ONdarray (as_array v));
    PyRef <$> alloc (OPaillierTensor arr)
  else mret other.

(** What a caller sees of an outcome: the error, or the array the returned
    wrapper is over. *)
Definition observe (out : heap obj * (exn + pyval)) : exn + option ndarray :=
  match out with
  | (h, inr (PyRef l)) =>
      match h !! l with
      | Some (OPaillierTensor arr) =>
          match h !! arr with
          | Some (ONdarray a) => inr (Some a)
          | _ => inr None
          end
      | _ => inr None
      end
  | (_, inr _) => inr None
  | (_, inl e) => inl e
  end.

(** A computation that leaves every object of the store as it was: all it
    does to the store is allocate. *)
Definition preserves {A} (m : M A) : Prop := ∀ h, ∃ ext, (m h).1 = h ++ ext.

(** An outcome that is the expected error, or a wrapper that did not exist
    in [h], over the expected array, in a store that extends [h]. *)
Definition returns_wrapper (h : heap obj) (out : heap obj * (exn + pyval))
    (expected : exn + ndarray) : Prop :=
  ∃ ext, out.1 = h ++ ext
         ∧ match expected with
           | inr res => ∃ l, out.2 = inr (PyRef l) ∧ length h ≤ l
                             ∧ is_wrapper (h ++ ext) (PyRef l) res
           | inl e => out.2 = inl e
           end.

(** Every way of calling into the class. *)
Inductive call :=
  | Construct (paillier_array : pyval)
  | Repr (self : pyval)
  | Decypt (self : pyval) (sk : secret_key)
  | ToTensor (self : pyval) (sk : option secret_key)
  | Numpy (self : pyval)
  | TorchFunction (func : torch_function) (types : list pytype) (args : list pyval)
  | Method (op : arith) (input other : pyval)
  | Operator (op : arith) (self other : pyval).

Definition run (c : call) : M (pyval + string) :=
  match c with
  | Construct v => inl <$> __init__ v
  | Repr self => inr <$> __repr__ self
  | Decypt self sk => inl <$> decypt self sk
  | ToTensor self sk => inl <$> tensor self sk
  | Numpy self => inl <$> numpy self
  | TorchFunction func types args => inl <$> __torch_function__ func types args
  | Method op input other => inl <$> method op input other
  | Operator op self other => inl <$> operator op self other
  end.

(** The arithmetic on values.  [wrap] is the constructor call on the result
    of numpy's operator, which is a scalar when it has no dimension. *)
Definition wrap (r : exn + npval) : exn + ndarray :=
  match r with
  | inr (Arr a) => inr a
  | inr (Scal _) => inl (TypeError (repr Tobject ++ " is not supported."))
  | inl e => inl e
  end.

Definition minus (b : operand) : exn + npval :=
  match b with
  | Number _ x => inr (Scal (of_num (num_mul num_neg_one x)))
  | Array t => binop elem_mul (Scal (of_num num_neg_one)) (Arr t)
  end.

Definition compute (op : arith) (a : ndarray) (b : operand) : exn + ndarray :=
  match op with
  | Add => wrap (binop elem_add (Arr a) (operand_np b))
  | Mul => wrap (binop elem_mul (Arr a) (operand_np b))
  | Sub =>
      match minus b with
      | inr m => wrap (binop elem_add (Arr a) m)
      | inl e => inl e
      end
  end.
End wrapped.
End Wrapped.

(** ** Well-formed clients and the life of a client *)

Module Lifecycle.
Section lifecycle.
Context `{OptimizerRules}.
Local Abbreviation M := (Store.M tensor).

(** The parameters of a model are distinct named objects of the store: the
    names are the keys of a dictionary, the objects exist. *)
Definition model_wf (m : Module_) (h : heap tensor) : Prop :=
  NoDup (Model.names m) ∧ NoDup (Model.parameters m)
  ∧ Forall (λ l, l < length h) (Model.parameters m).

(** The adapter an optimizer type stands for. *)
Definition adapter_of (ty : string) : option OptKind :=
  if decide (ty = "sgd") then Some SGD
  else if decide (ty = "adam") then Some Adam
  else None.

(** Keyword arguments with a key that names an argument a call of the
    constructor binds itself: [self] or [optimizer_type] of the setup method,
    or [lr] where an adapter is built. *)
Definition kwargs_clash (ty : string) (kw : kwargs) : Prop :=
  Exists (λ k, k ∈ ["self"; "optimizer_type"]) kw.*1
  ∨ (is_Some (adapter_of ty) ∧ "lr" ∈ kw.*1).

(** Keyword arguments the constructor can pass on for the optimizer type
    [ty]: no such key, and the constructor of the adapter takes them. *)
Definition kwargs_ok (ty : string) (kw : kwargs) : Prop :=
  ¬ kwargs_clash ty kw ∧ ∀ kind, adapter_of ty = Some kind → rejects kind kw = None.

(** A state dictionary with exactly the model's parameter names. *)
Definition full_state (m : Module_) (sd : gmap string tensor) : Prop :=
  dom sd = list_to_set (Model.names m).

(** The values a state dictionary of references denotes in a store. *)
Definition read_state (h : heap tensor) (sd : gmap string loc) : gmap string tensor :=
  omap (λ l, h !! l) sd.

(** What happens to a client between its construction and any later moment:
    a [download] that returns, a [download] that raises, and whatever the
    trainer does to the store (it never runs a method of the client, and
    objects are not destroyed). *)
Inductive step : FedAvgClient.t * heap tensor → FedAvgClient.t * heap tensor → Prop :=
  | step_download self g h h' self' :
      FedAvgClient.download self g h = (h', inr self') → step (self, h) (self', h')
  | step_download_raises self g h h' e :
      FedAvgClient.download self g h = (h', inl e) → step (self, h) (self, h')
  | step_train self h h' :
      length h ≤ length h' → step (self, h) (self, h').

Definition reachable := rtc step.
End lifecycle.
End Lifecycle.
Import Lifecycle.

(** ** A concrete interpretation, for evaluating the code on inputs *)

Module Concrete.

(** Tensors as exact rationals; plain gradient descent [p - lr * g] as the
    update rule of both adapters. *)
Definition Q_tensors : Tensors :=
  {| tensor := Q; scalar := Q;
     tsub := λ p q, Qred (p - q)%Q;
     tdiv := λ p r, Qred (p / r)%Q;
     reshape_to := λ v _ _, Some v |}.

Definition descent : @OptimizerRules Q_tensors :=
  @Build_OptimizerRules Q_tensors Q unit (λ _ _, None) (λ _ _, ())
    (λ _ (r : Q) _ _ b (p g : Q), (b, Qred (p - r * g)%Q)).

(** A model with the two parameters [w] and [b], the objects 0 and 1. *)
Definition net : Module_ := {| named_parameters := [("w", 0); ("b", 1)] |}.
Definition h0 : heap Q := [1 # 2; 3 # 1]%Q.
Definition S1 : gmap string Q := {[ "w" := (1 # 1)%Q; "b" := (2 # 1)%Q ]}.

Section scenarios.
#[local] Existing Instance Q_tensors.
#[local] Existing Instance descent.

Definition new_client (optimizer_type : string) (server_side_update : bool)
  : Store.M Q FedAvgClient.t :=
  FedAvgClient.__init__ net 0 (1 # 10)%Q true optimizer_type server_side_update [] "cpu".

(** A client that applies updates itself; the first download loads [S1];
    local training then moves [w] to 5; the next download brings the zero
    update; [w] is read back. *)
Definition train_then_download : Store.M Q Q :=
  c ← new_client "sgd" false;
  c ← FedAvgClient.download c (StateDict S1);
  _ ← write 0 (5 # 1)%Q;
  c ← FedAvgClient.download c (TensorList [0 # 1; 0 # 1]%Q);
  read 0.


(** The same round with the revert of the specification. *)
Definition train_then_download_as_specified : Store.M Q Q :=
  c ← new_client "sgd" false;
  c ← FedAvgClient.download c (StateDict S1);
  _ ← write 0 (5 # 1)%Q;
  c ← Specified.download c (TensorList [0 # 1; 0 # 1]%Q);
  read 0.

(** Keyword arguments for an adapter, and a dictionary with a key that the
    constructor passes itself. *)
Definition momentum : kwargs := [("momentum", (9 # 10)%Q)].
Definition clashing : kwargs := [("optimizer_type", (1 # 1)%Q)].

(** The clients the constructor builds on [h0], which it leaves as [h1]. *)
Definition h1 : heap Q := [1 # 2; 3 # 1; 1 # 2; 3 # 1]%Q.

Definition built (optimizer_type : string) (server_side_update : bool) : FedAvgClient.t :=
  {| FedAvgClient.model := net; FedAvgClient.user_id := 0;
     FedAvgClient.lr := (1 # 10)%Q; FedAvgClient.send_gradient := true;
     FedAvgClient.server_side_update := server_side_update;
     FedAvgClient.device := "cpu";
     FedAvgClient.optimizer_for_gloal_grad :=
       if server_side_update then FedAvgClient.Unset
       else if String.eqb optimizer_type "none" then FedAvgClient.IsNone
       else FedAvgClient.Adapter (FLOptimizer.new SGD [0; 1] (1 # 10)%Q []);
     FedAvgClient.prev_parameters := [2; 3];
     FedAvgClient.initialized := false |}.

(** After the first download of [S1]: the store, and the client. *)
Definition h2 : heap Q := [1 # 1; 2 # 1; 1 # 2; 3 # 1; 1 # 1; 2 # 1]%Q.

Definition ready (optimizer_type : string) (server_side_update : bool) : FedAvgClient.t :=
  {| FedAvgClient.model := net; FedAvgClient.user_id := 0;
     FedAvgClient.lr := (1 # 10)%Q; FedAvgClient.send_gradient := true;
     FedAvgClient.server_side_update := server_side_update;
     FedAvgClient.device := "cpu";
     FedAvgClient.optimizer_for_gloal_grad :=
       FedAvgClient.optimizer_for_gloal_grad (built optimizer_type server_side_update);
     FedAvgClient.prev_parameters := [4; 5];
     FedAvgClient.initialized := true |}.

(** A store after local training: the parameters at 1 and 2, the snapshot
    at 3 and 5. *)
Definition trained : heap Q := [1 # 1; 2 # 1; 3 # 1; 5 # 1]%Q.

(** A message-passing client with the parameters [7, 8] waiting for it. *)
Definition mpi : MPIFedAVGClient.t :=
  {| MPIFedAVGClient.comm :=
       {| Comm.sent := []; Comm.inbox := [(PARAMETERS_TAG, [7 # 1; 8 # 1]%Q)] |};
     MPIFedAVGClient.model := net; MPIFedAVGClient.user_id := 1;
     MPIFedAVGClient.lr := (1 # 10)%Q; MPIFedAVGClient.device := "cpu";
     MPIFedAVGClient.prev_parameters := [2; 3];
     MPIFedAVGClient.gradients := None |}.

Definition mpi_received : MPIFedAVGClient.t :=
  {| MPIFedAVGClient.comm := {| Comm.sent := []; Comm.inbox := [] |};
     MPIFedAVGClient.model := net; MPIFedAVGClient.user_id := 1;
     MPIFedAVGClient.lr := (1 # 10)%Q; MPIFedAVGClient.device := "cpu";
     MPIFedAVGClient.prev_parameters := [2; 3];
     MPIFedAVGClient.gradients := None |}.
End scenarios.

(** Integers for numbers and, as a stand-in, for ciphertexts. *)
Definition Z_scalars : Scalars :=
  {| num := Z; elem := Z; of_num := λ x, x; is_number := λ _, false;
     num_neg_one := (-1)%Z; num_zero := 0%Z; num_mul := Z.mul;
     elem_add := λ x y, Some (x + y)%Z;
     elem_mul := λ x y, Some (x * y)%Z;
     secret_key := unit;
     decrypt2float := λ _ x, inr x |}.

Section arrays.
#[local] Existing Instance Z_scalars.
Import Np PaillierTensor.

(** An encrypted array of one element (the objects 0 and 1) and a tensor of
    three (the object 2). *)
Definition one : ndarray := {| shape := [1]; data := [10%Z] |}.
Definition three : ndarray := {| shape := [3]; data := [1; 2; 3]%Z |}.
Definition store0 : heap obj := [ONdarray one; OPaillierTensor 0; OTensor three].
Definition sum13 : ndarray := {| shape := [3]; data := [11; 12; 13]%Z |}.
End arrays.
End Concrete.

(** ** More inputs *)

Module Samples.
Import Concrete.

(** Tensors as vectors of rationals; a vector takes the shape of another
    when it has as many entries. *)
Definition vec_tensors : Tensors :=
  {| tensor := list Q; scalar := Q;
     tsub := zip_with (λ p q, Qred (p - q)%Q);
     tdiv := λ p r, (λ x, Qred (x / r)%Q) <$> p;
     reshape_to := λ v p _, if decide (length v = length p) then Some v else None |}.

Section clients.
#[local] Existing Instance Q_tensors.
#[local] Existing Instance descent.

(** A client whose snapshot has one entry for the two parameters. *)
Definition lopsided : FedAvgClient.t :=
  {| FedAvgClient.model := net; FedAvgClient.user_id := 0;
     FedAvgClient.lr := (1 # 10)%Q; FedAvgClient.send_gradient := true;
     FedAvgClient.server_side_update := false; FedAvgClient.device := "cpu";
     FedAvgClient.optimizer_for_gloal_grad := FedAvgClient.IsNone;
     FedAvgClient.prev_parameters := [2];
     FedAvgClient.initialized := true |}.

(** A message-passing client with one entry waiting for its two parameters. *)
Definition mpi_short : MPIFedAVGClient.t :=
  {| MPIFedAVGClient.comm :=
       {| Comm.sent := []; Comm.inbox := [(PARAMETERS_TAG, [7 # 1]%Q)] |};
     MPIFedAVGClient.model := net; MPIFedAVGClient.user_id := 1;
     MPIFedAVGClient.lr := (1 # 10)%Q; MPIFedAVGClient.device := "cpu";
     MPIFedAVGClient.prev_parameters := [2; 3];
     MPIFedAVGClient.gradients := None |}.
End clients.

Section vectors.
#[local] Existing Instance vec_tensors.

(** A model of a vector of two entries and a vector of one, and a client
    with two vectors of two entries waiting for it. *)
Definition hv : heap (list Q) := [[1 # 1; 2 # 1]; [3 # 1]]%Q.

Definition mpi_vec : MPIFedAVGClient.t :=
  {| MPIFedAVGClient.comm :=
       {| Comm.sent := [];
          Comm.inbox := [(PARAMETERS_TAG, [[5 # 1; 6 # 1]; [7 # 1; 8 # 1]]%Q)] |};
     MPIFedAVGClient.model := net; MPIFedAVGClient.user_id := 1;
     MPIFedAVGClient.lr := (1 # 10)%Q; MPIFedAVGClient.device := "cpu";
     MPIFedAVGClient.prev_parameters := [];
     MPIFedAVGClient.gradients := None |}.
End vectors.

Section arrays.
#[local] Existing Instance Z_scalars.
Import Np PaillierTensor.

(** An encrypted array of three elements (the objects 0 and 1) and a tensor
    of three (the object 2). *)
Definition tens : ndarray := {| shape := [3]; data := [10; 20; 30]%Z |}.
Definition store1 : heap obj := [ONdarray three; OPaillierTensor 0; OTensor tens].
End arrays.

(** Integers again, with a key that refuses negative ciphertexts. *)
Definition picky_scalars : Scalars :=
  {| num := Z; elem := Z; of_num := λ x, x; is_number := λ _, false;
     num_neg_one := (-1)%Z; num_zero := 0%Z; num_mul := Z.mul;
     elem_add := λ x y, Some (x + y)%Z;
     elem_mul := λ x y, Some (x * y)%Z;
     secret_key := unit;
     decrypt2float := λ _ x,
       if decide (0 ≤ x)%Z then inr x else inl (ValueError "negative ciphertext") |}.

Section picky.
#[local] Existing Instance picky_scalars.
Import Np PaillierTensor.

(** An encrypted array whose second element the key refuses. *)
Definition mixed : ndarray := {| shape := [3]; data := [1; -2; 3]%Z |}.
Definition store2 : heap obj := [ONdarray mixed; OPaillierTensor 0].
End picky.
End Samples.

(** * Properties *)

(** ** The store monad *)

Section monad_facts.
Context {C : Type}.
Implicit Types (h : heap C) (l : loc).

Lemma bind_run {A B} (m : Store.M C A) (f : A → Store.M C B) h :
  (m ≫= f) h = match m h with
               | (h', inr x) => f x h'
               | (h', inl e) => (h', inl e)
               end.
Proof. reflexivity. Qed.

Lemma fmap_run {A B} (g : A → B) (m : Store.M C A) h :
  (g <$> m) h = match m h with
                | (h', inr x) => (h', inr (g x))
                | (h', inl e) => (h', inl e)
                end.
Proof. unfold fmap, M_fmap. rewrite bind_run. by destruct (m h) as [? [?|?]]. Qed.

Lemma read_run h l v : h !! l = Some v → read l h = (h, inr v).
Proof. intros Hl. unfold read. by rewrite Hl. Qed.

Lemma write_run h l v : l < length h → write l v h = (<[l:=v]> h, inr ()).
Proof. intros Hl. unfold write. by rewrite decide_True. Qed.

Lemma values_Forall2 h ls vs :
  values h ls = Some vs ↔ Forall2 (λ l v, h !! l = Some v) ls vs.
Proof. apply mapM_Some. Qed.

Lemma values_length h ls vs : values h ls = Some vs → length vs = length ls.
Proof. intros Hv. symmetry. by eapply length_mapM. Qed.

Lemma values_app h ext ls vs : values h ls = Some vs → values (h ++ ext) ls = Some vs.
Proof.
  rewrite !values_Forall2. intros HF. eapply Forall2_impl; [exact HF|].
  intros l v Hl. by apply lookup_app_l_Some.
Qed.

Lemma values_frame h h' ls :
  (∀ l, l ∈ ls → h' !! l = h !! l) → values h' ls = values h ls.
Proof. intros Hsame. apply Forall_mapM_ext, Forall_forall. exact Hsame. Qed.

Lemma values_is_Some h ls :
  Forall (λ l, l < length h) ls → is_Some (values h ls).
Proof.
  intros Hls. apply mapM_is_Some. eapply Forall_impl; [exact Hls|].
  intros l Hl. by apply lookup_lt_is_Some.
Qed.

(** The snapshot loop: every parameter is copied to a new object, the new
    objects sit after all earlier ones. *)
Lemma snapshot_run ls : ∀ h vs,
  values h ls = Some vs →
  mapM deepcopy ls h = (h ++ vs, inr (seq (length h) (length ls))).
Proof.
  induction ls as [|l ls IH]; intros h vs Hv.
  - apply values_Forall2, Forall2_nil_inv_l in Hv as ->.
    by rewrite app_nil_r.
  - apply values_Forall2, Forall2_cons_inv_l in Hv as (v & vs' & Hl & Hvs & ->).
    apply values_Forall2 in Hvs.
    cbn [mapM]. rewrite bind_run. unfold deepcopy at 1.
    rewrite bind_run, (read_run _ _ _ Hl). unfold alloc at 1.
    rewrite bind_run, (IH (h ++ [v]) vs') by by apply values_app.
    cbn. rewrite length_app, <- app_assoc. cbn.
    by rewrite Nat.add_1_r.
Qed.

End monad_facts.

(** ** The model and the adapters *)

Section model_facts.
Context `{OptimizerRules}.
Implicit Types (h : heap tensor) (m : Module_).

Lemma write_all_run (ws : list (loc * tensor)) : ∀ h,
  Forall (λ l, l < length h) ws.*1 →
  ∃ h', write_all ws h = (h', inr ()) ∧ length h' = length h
        ∧ (∀ l, l ∉ ws.*1 → h' !! l = h !! l)
        ∧ (NoDup ws.*1 → ∀ l v, (l, v) ∈ ws → h' !! l = Some v).
Proof.
  induction ws as [|[l v] ws IH]; intros h Hls.
  - exists h. split_and!; [done..|]. intros _ l v Hin. by apply elem_of_nil in Hin.
  - apply Forall_cons in Hls as [Hl Hls]. cbn in Hl.
    destruct (IH (<[l:=v]> h)) as (h' & Hrun & Hlen & Hout & Hin).
    { by rewrite length_insert. }
    exists h'. cbn [write_all]. rewrite bind_run, write_run, Hrun by done.
    rewrite length_insert in Hlen. split_and!; [done..| |].
    + intros l' Hl'. cbn in Hl'. apply not_elem_of_cons in Hl' as [Hne Hl'].
      rewrite Hout by done. by apply list_lookup_insert_ne.
    + intros Hnd l' v' Hmem. cbn in Hnd. apply NoDup_cons in Hnd as [Hfresh Hnd].
      apply elem_of_cons in Hmem as [[= -> ->]|Hmem].
      * rewrite Hout by done. by apply list_lookup_insert_eq.
      * by apply Hin.
Qed.

Lemma write_all_length (ws : list (loc * tensor)) : ∀ h h' r,
  write_all ws h = (h', r) → length h' = length h.
Proof.
  induction ws as [|[l v] ws IH]; intros h h' r; cbn [write_all].
  - by intros [= <- _].
  - rewrite bind_run. unfold write. case_decide.
    + intros Hrun. apply IH in Hrun. by rewrite length_insert in Hrun.
    + by intros [= <- _].
Qed.

(** The writes [load_state_dict] makes, for a full state. *)
Lemma load_plan m (sd : gmap string tensor) :
  full_state m sd →
  ∃ ws, mapM (λ '(n, l), (λ v, (l, v)) <$> sd !! n) (named_parameters m) = Some ws
        ∧ ws.*1 = Model.parameters m
        ∧ Forall2 (λ nl lv, lv.1 = nl.2 ∧ sd !! nl.1 = Some lv.2) (named_parameters m) ws.
Proof.
  unfold full_state, Model.names, Model.parameters. intros Hdom.
  assert (Hall : Forall (λ nl, is_Some (sd !! nl.1)) (named_parameters m)).
  { apply Forall_forall. intros [n l] Hin. apply elem_of_dom. rewrite Hdom.
    apply elem_of_list_to_set, list_elem_of_fmap. by exists (n, l). }
  clear Hdom. induction Hall as [|[n l] nps [v Hv] _ (ws & Hws & Hfst & HF)].
  - by exists [].
  - exists ((l, v) :: ws). cbn in Hv. cbn [mapM]. rewrite Hv. cbn.
    rewrite Hws. cbn. split_and!; [done|by f_equal|by constructor].
Qed.

Lemma load_state_dict_run m (sd : gmap string tensor) h :
  model_wf m h → full_state m sd →
  ∃ h', load_state_dict m (StateDict sd) h = (h', inr ()) ∧ length h' = length h
        ∧ (∀ n l, (n, l) ∈ named_parameters m → h' !! l = sd !! n)
        ∧ (∀ l, l ∉ Model.parameters m → h' !! l = h !! l).
Proof.
  intros (Hnames & Hlocs & Hin) Hfull.
  destruct (load_plan m sd Hfull) as (ws & Hws & Hfst & HF).
  destruct (write_all_run ws h) as (h' & Hrun & Hlen & Hout & Hwr).
  { by rewrite Hfst. }
  exists h'. unfold load_state_dict. rewrite decide_True by done.
  rewrite Hws. split_and!; [done..| |].
  - intros n l Hmem. apply list_elem_of_lookup in Hmem as [i Hi].
    destruct (Forall2_lookup_l _ _ _ _ _ HF Hi) as ([l' v] & Hw & Hl' & Hv).
    cbn in Hl', Hv. subst l'. rewrite Hv. apply Hwr; [by rewrite Hfst|].
    by eapply list_elem_of_lookup_2.
  - intros l Hl. apply Hout. by rewrite Hfst.
Qed.

Lemma load_state_dict_length m g h h' r :
  load_state_dict m g h = (h', r) → length h' = length h.
Proof.
  unfold load_state_dict. destruct g as [sd|ts]; [|by intros [= <- _]].
  case_decide; [|by intros [= <- _]].
  destruct (mapM _ _) as [ws|]; [|by intros [= <- _]].
  apply write_all_length.
Qed.

Lemma step_loop_length (o : FLOptimizer.t) work : ∀ h h' r,
  FLOptimizer.step_loop o work h = (h', r) → length h' = length h.
Proof.
  induction work as [|[[l b] g] work IH]; intros h h' r; cbn [FLOptimizer.step_loop].
  - by intros [= <- _].
  - rewrite bind_run. unfold read. destruct (h !! l) as [p|]; [|by intros [= <- _]].
    destruct (update_rule _ _ _ _ b p g) as [b' p'].
    rewrite bind_run. unfold write. case_decide; [|by intros [= <- _]].
    rewrite bind_run. destruct (FLOptimizer.step_loop o work _) as [h1 [e|bs]] eqn:Hrun.
    + intros [= <- _]. apply IH in Hrun. by rewrite length_insert in Hrun.
    + intros [= <- _]. apply IH in Hrun. by rewrite length_insert in Hrun.
Qed.

Lemma step_loop_run (o : FLOptimizer.t) work : ∀ h,
  Forall (λ w, w.1.1 < length h) work →
  ∃ h' bs, FLOptimizer.step_loop o work h = (h', inr bs).
Proof.
  induction work as [|[[l b] g] work IH]; intros h Hw; cbn [FLOptimizer.step_loop].
  - by exists h, [].
  - apply Forall_cons in Hw as [Hl Hw]. cbn in Hl.
    destruct (lookup_lt_is_Some_2 _ _ Hl) as [p Hp].
    rewrite bind_run, (read_run _ _ _ Hp).
    destruct (update_rule _ _ _ _ b p g) as [b' p'].
    rewrite bind_run, write_run by done.
    destruct (IH (<[l:=p']> h)) as (h' & bs & Hrun).
    { eapply Forall_impl; [exact Hw|]. intros w. by rewrite length_insert. }
    eexists _, _. by rewrite bind_run, Hrun.
Qed.

Lemma step_length (o : FLOptimizer.t) g h h' r :
  FLOptimizer.step o g h = (h', r) → length h' = length h.
Proof.
  unfold FLOptimizer.step. destruct g as [sd|gs]; [by intros [= <- _]|].
  case_decide; [|by intros [= <- _]].
  rewrite bind_run.
  destruct (FLOptimizer.step_loop o _ h) as [h1 [e|bs]] eqn:Hrun.
  - intros [= <- _]. by eapply step_loop_length.
  - intros [= <- _]. by eapply step_loop_length.
Qed.

Lemma step_run (o : FLOptimizer.t) gs h :
  length gs = length (FLOptimizer.parameters o) →
  Forall (λ l, l < length h) (FLOptimizer.parameters o) →
  ∃ h' o', FLOptimizer.step o (TensorList gs) h = (h', inr o')
           ∧ FLOptimizer.parameters o' = FLOptimizer.parameters o.
Proof.
  intros Hlen Hin. unfold FLOptimizer.step. rewrite decide_True by done.
  destruct (step_loop_run o (zip (zip (FLOptimizer.parameters o) (FLOptimizer.buffers o)) gs) h)
    as (h' & bs & Hrun).
  { apply Forall_forall. intros [[l b] g] Hmem. cbn.
    apply elem_of_zip_l, elem_of_zip_l in Hmem.
    by eapply (proj1 (Forall_forall _ _) Hin). }
  eexists _, _. by rewrite bind_run, Hrun.
Qed.
End model_facts.

(** ** [FedAvgClient] and [MPIFedAVGClient] *)

Section client_facts.
Context `{OptimizerRules}.
Import FedAvgClient.
Implicit Types (h : heap tensor) (self : FedAvgClient.t).

(** [revert] writes nothing. *)
Lemma revert_loop_run pairs h : revert_loop pairs h = (h, inr ()).
Proof. induction pairs as [|[param prev_param] rest IH]; [done|]. exact IH. Qed.

Lemma revert_run self h : revert self h = (h, inr ()).
Proof. apply revert_loop_run. Qed.

Lemma values_seq_app h (vs : list tensor) :
  values (h ++ vs) (seq (length h) (length vs)) = Some vs.
Proof.
  apply values_Forall2, Forall2_same_length_lookup. split.
  - by rewrite length_seq.
  - intros i l v Hl Hv. apply lookup_seq in Hl as [-> _].
    by rewrite lookup_app_r, Nat.add_comm, Nat.add_sub by lia.
Qed.

Lemma model_wf_length m h h' : length h ≤ length h' → model_wf m h → model_wf m h'.
Proof.
  intros Hle (Hn & Hl & Hin). split_and!; [done..|].
  eapply Forall_impl; [exact Hin|]. intros l ?. cbn in *. lia.
Qed.

(** What every [download] that returns has done: the body wrote objects of
    the store as it was (none was added), then each parameter was copied to
    a new object and the copies became the snapshot. *)
Lemma download_returns self g h h' self' :
  model_wf (model self) h →
  download self g h = (h', inr self') →
  ∃ h1 vs,
    h' = h1 ++ vs ∧ length h1 = length h
    ∧ values h1 (Model.parameters (model self)) = Some vs
    ∧ prev_parameters self' = seq (length h) (length (Model.parameters (model self)))
    ∧ model self' = model self ∧ initialized self' = true
    ∧ server_side_update self' = server_side_update self
    ∧ lr self' = lr self
    ∧ (optimizer_for_gloal_grad self = IsNone → optimizer_for_gloal_grad self' = IsNone)
    ∧ (∀ o, optimizer_for_gloal_grad self = Adapter o →
         ∃ o', optimizer_for_gloal_grad self' = Adapter o'
               ∧ FLOptimizer.parameters o' = FLOptimizer.parameters o).
Proof.
  intros Hwf. unfold download. rewrite bind_run.
  set (body := if server_side_update self || negb (initialized self) then _ else _).
  destruct (body h) as [h1 [e|opt]] eqn:Hbody; [done|].
  assert (Hlen : length h1 = length h).
  { subst body. destruct (server_side_update self || negb (initialized self)).
    - rewrite bind_run in Hbody.
      destruct (load_state_dict _ _ h) as [h2 [e|[]]] eqn:Hload; [done|].
      injection Hbody as <- _. by eapply load_state_dict_length.
    - rewrite bind_run, revert_run in Hbody.
      destruct (optimizer_for_gloal_grad self) as [| |o]; [done..|].
      rewrite fmap_run in Hbody.
      destruct (FLOptimizer.step o g h) as [h2 [e|o']] eqn:Hstep; [done|].
      injection Hbody as <- _. by eapply step_length. }
  assert (Hopt : (optimizer_for_gloal_grad self = IsNone → opt = IsNone)
    ∧ (∀ o, optimizer_for_gloal_grad self = Adapter o →
         ∃ o', opt = Adapter o' ∧ FLOptimizer.parameters o' = FLOptimizer.parameters o)).
  { subst body. destruct (server_side_update self || negb (initialized self)).
    - rewrite bind_run in Hbody.
      destruct (load_state_dict _ _ h) as [h2 [e|[]]]; [done|].
      injection Hbody as _ <-. split; [done|]. intros o ->. by exists o.
    - rewrite bind_run, revert_run in Hbody.
      destruct (optimizer_for_gloal_grad self) as [| |o]; [done..|].
      rewrite fmap_run in Hbody. unfold FLOptimizer.step in Hbody.
      destruct g as [sd|gs]; [done|]. case_decide; [|done].
      rewrite bind_run in Hbody.
      destruct (FLOptimizer.step_loop o _ h) as [h2 [e|bs]]; [done|].
      injection Hbody as _ <-. split; [done|]. intros ? [= <-]. by eexists. }
  clear Hbody body.
  destruct (values_is_Some h1 (Model.parameters (model self))) as [vs Hvs].
  { destruct Hwf as (_ & _ & Hin). by rewrite Hlen. }
  rewrite bind_run, (snapshot_run _ _ _ Hvs). cbn. intros [= <- <-]. cbn.
  exists h1, vs. rewrite Hlen. destruct Hopt as [Hnone Hadapter].
  split_and!; try done. by destruct (initialized self).
Qed.

(** The fields of the client a [download] returns. *)
Lemma download_fields self g h h' self' :
  download self g h = (h', inr self') →
  initialized self' = true ∧ model self' = model self
  ∧ server_side_update self' = server_side_update self
  ∧ (optimizer_for_gloal_grad self = IsNone → optimizer_for_gloal_grad self' = IsNone)
  ∧ (∀ o, optimizer_for_gloal_grad self = Adapter o →
       ∃ o', optimizer_for_gloal_grad self' = Adapter o'
             ∧ FLOptimizer.parameters o' = FLOptimizer.parameters o).
Proof.
  unfold download. rewrite bind_run.
  set (body := if server_side_update self || negb (initialized self) then _ else _).
  destruct (body h) as [h1 [e|opt]] eqn:Hbody; [done|].
  assert (Hopt : (optimizer_for_gloal_grad self = IsNone → opt = IsNone)
    ∧ (∀ o, optimizer_for_gloal_grad self = Adapter o →
         ∃ o', opt = Adapter o' ∧ FLOptimizer.parameters o' = FLOptimizer.parameters o)).
  { subst body. destruct (server_side_update self || negb (initialized self)).
    - rewrite bind_run in Hbody.
      destruct (load_state_dict _ _ h) as [h2 [e|[]]]; [done|].
      injection Hbody as _ <-. split; [done|]. intros o ->. by exists o.
    - rewrite bind_run, revert_run in Hbody.
      destruct (optimizer_for_gloal_grad self) as [| |o]; [done..|].
      rewrite fmap_run in Hbody. unfold FLOptimizer.step in Hbody.
      destruct g as [sd|gs]; [done|]. case_decide; [|done].
      rewrite bind_run in Hbody.
      destruct (FLOptimizer.step_loop o _ h) as [h2 [e|bs]]; [done|].
      injection Hbody as _ <-. split; [done|]. intros ? [= <-]. by eexists. }
  clear Hbody body. rewrite bind_run.
  destruct (mapM deepcopy _ h1) as [h2 [e|prev]]; [done|].
  intros [= _ <-]. cbn. destruct Hopt as [Hnone Hadapter].
  split_and!; try done. by destruct (initialized self).
Qed.

Lemma snapshot_grows {C : Type} (ls : list loc) : ∀ (h h' : heap C) r,
  mapM deepcopy ls h = (h', r) → length h ≤ length h'.
Proof.
  induction ls as [|l ls IH]; intros h h' r; cbn [mapM].
  - by intros [= <- _].
  - rewrite bind_run. unfold deepcopy at 1. rewrite bind_run. unfold read at 1.
    destruct (h !! l) as [v|]; [|by intros [= <- _]].
    unfold alloc at 1. rewrite bind_run.
    destruct (mapM deepcopy ls (h ++ [v])) as [h1 [e|ls1]] eqn:Hrest;
      intros [= <- _]; apply IH in Hrest; rewrite length_app in Hrest; cbn in Hrest; lia.
Qed.

(** No [download] removes an object, whether it returns or raises. *)
Lemma download_grows self g h h' r :
  download self g h = (h', r) → length h ≤ length h'.
Proof.
  unfold download. rewrite bind_run.
  set (body := if server_side_update self || negb (initialized self) then _ else _).
  destruct (body h) as [h1 [e|opt]] eqn:Hbody.
  - intros [= <- _]. subst body.
    destruct (server_side_update self || negb (initialized self)).
    + rewrite bind_run in Hbody.
      destruct (load_state_dict _ _ h) as [h2 [e'|[]]] eqn:Hload; [|done].
      injection Hbody as <- _. by rewrite (load_state_dict_length _ _ _ _ _ Hload).
    + rewrite bind_run, revert_run in Hbody.
      destruct (optimizer_for_gloal_grad self) as [| |o];
        [by injection Hbody as <- _..|].
      rewrite fmap_run in Hbody.
      destruct (FLOptimizer.step o g h) as [h2 [e'|o']] eqn:Hstep; [|done].
      injection Hbody as <- _. by rewrite (step_length _ _ _ _ _ Hstep).
  - assert (Hlen : length h1 = length h).
    { subst body. destruct (server_side_update self || negb (initialized self)).
      - rewrite bind_run in Hbody.
        destruct (load_state_dict _ _ h) as [h2 [e|[]]] eqn:Hload; [done|].
        injection Hbody as <- _. by eapply load_state_dict_length.
      - rewrite bind_run, revert_run in Hbody.
        destruct (optimizer_for_gloal_grad self) as [| |o]; [done..|].
        rewrite fmap_run in Hbody.
        destruct (FLOptimizer.step o g h) as [h2 [e|o']] eqn:Hstep; [done|].
        injection Hbody as <- _. by eapply step_length. }
    rewrite bind_run.
    destruct (mapM deepcopy _ h1) as [h2 [e|prev]] eqn:Hsnap;
      intros [= <- _]; apply snapshot_grows in Hsnap; lia.
Qed.

(** A download that takes the loading path, handed a full state. *)
Lemma download_load self (sd : gmap string tensor) h :
  server_side_update self || negb (initialized self) = true →
  model_wf (model self) h → full_state (model self) sd →
  ∃ h1 vs self',
    download self (StateDict sd) h = (h1 ++ vs, inr self')
    ∧ length h1 = length h
    ∧ (∀ n l, (n, l) ∈ named_parameters (model self) → h1 !! l = sd !! n).
Proof.
  intros Hpath Hwf Hfull.
  destruct (load_state_dict_run _ _ _ Hwf Hfull) as (h1 & Hload & Hlen & Hin & _).
  destruct (values_is_Some h1 (Model.parameters (model self))) as [vs Hvs].
  { destruct Hwf as (_ & _ & ?). by rewrite Hlen. }
  eexists h1, vs, _. unfold download.
  rewrite bind_run, Hpath, bind_run, Hload. cbn.
  rewrite bind_run, (snapshot_run _ _ _ Hvs). cbn. done.
Qed.
End client_facts.

Section mpi_facts.
Context `{Tensors}.
Import MPIFedAVGClient.
Implicit Types (h : heap tensor) (self : MPIFedAVGClient.t).

(** The loop of [download] writes parameters of the model and nothing else. *)
Lemma download_loop_frame dev pairs : ∀ h h' r,
  download_loop dev pairs h = (h', r) →
  length h' = length h ∧ ∀ l, l ∉ pairs.*1 → h' !! l = h !! l.
Proof.
  induction pairs as [|[params new_params] rest IH]; intros h h' r;
    cbn [download_loop].
  - by intros [= <- _].
  - rewrite bind_run. unfold read.
    destruct (h !! params) as [p|]; [|by intros [= <- _]].
    destruct (reshape_to new_params p dev) as [v|]; [|by intros [= <- _]].
    rewrite bind_run. unfold write. case_decide; [|by intros [= <- _]].
    intros Hrun. apply IH in Hrun as [Hlen Hout]. rewrite length_insert in Hlen.
    split; [done|]. intros l Hl. cbn in Hl. apply not_elem_of_cons in Hl as [Hne Hl].
    rewrite Hout by done. by apply list_lookup_insert_ne.
Qed.

Lemma mpi_download_frame self h h' self' :
  download self h = (h', inr self') →
  prev_parameters self' = prev_parameters self
  ∧ length h' = length h
  ∧ ∀ l, l ∉ Model.parameters (model self) → h' !! l = h !! l.
Proof.
  unfold download. destruct (Comm.recv _ _) as [[new_parameters comm']|]; [|done].
  rewrite bind_run.
  destruct (download_loop _ _ h) as [h1 [e|[]]] eqn:Hloop; [done|].
  intros [= <- <-]. apply download_loop_frame in Hloop as [Hlen Hout].
  split_and!; [done..|]. intros l Hl. apply Hout. intros Hmem. apply Hl.
  apply list_elem_of_fmap in Hmem as ([l' v] & -> & Hmem).
  by apply elem_of_zip_l in Hmem.
Qed.
End mpi_facts.

(** ** The claims about the clients *)

Section client_claims.
Context `{OptimizerRules}.
Implicit Types (h : heap tensor).

(** C5.  A [FedAvgClient.download] that returns ends by replacing the
    snapshot with new objects, one per parameter, none of which existed
    before the call, holding the values the parameters have at that moment.
    An [MPIFedAVGClient.download] keeps the list [prev_parameters] it had and
    writes no object outside the model's parameters, so that a snapshot made
    of other objects (as the constructor makes it) holds the values it held. *)
Theorem download_snapshot_refresh (self : FedAvgClient.t) g h h' self'
    (mpi : MPIFedAVGClient.t) k k' mpi' :
  model_wf (FedAvgClient.model self) h →
  FedAvgClient.download self g h = (h', inr self') →
  (∀ l, l ∈ MPIFedAVGClient.prev_parameters mpi →
        l ∉ Model.parameters (MPIFedAVGClient.model mpi)) →
  MPIFedAVGClient.download mpi k = (k', inr mpi') →
  (FedAvgClient.prev_parameters self'
     = seq (length h) (length (Model.parameters (FedAvgClient.model self)))
   ∧ is_Some (values h' (Model.parameters (FedAvgClient.model self)))
   ∧ values h' (FedAvgClient.prev_parameters self')
     = values h' (Model.parameters (FedAvgClient.model self)))
  ∧ (MPIFedAVGClient.prev_parameters mpi' = MPIFedAVGClient.prev_parameters mpi
     ∧ values k' (MPIFedAVGClient.prev_parameters mpi')
       = values k (MPIFedAVGClient.prev_parameters mpi)).
Proof.
  intros Hwf Hrun Hsep Hmpi. split.
  - destruct (download_returns _ _ _ _ _ Hwf Hrun)
      as (h1 & vs & -> & Hlen & Hvs & Hprev & _).
    rewrite Hprev, (values_app _ _ _ _ Hvs). split_and!; [done..|].
    rewrite <- Hlen, <- (values_length _ _ _ Hvs). apply values_seq_app.
  - apply mpi_download_frame in Hmpi as (-> & _ & Hout). split; [done|].
    apply values_frame. intros l Hl. by apply Hout, Hsep.
Qed.

(** The state machine of section 4.2: a client that is Ready stays Ready. *)
Lemma ready_forever x y :
  reachable x y → FedAvgClient.initialized x.1 = true → FedAvgClient.initialized y.1 = true.
Proof.
  induction 1 as [|x y z Hstep _ IH]; [done|]. intros Hx. apply IH.
  destruct Hstep as [self g h h' self' Hrun| |]; [|done..].
  by apply download_fields in Hrun as (? & _).
Qed.

(** C3.  The first [download] of a client that has received nothing yet
    loads the given full state into the model, whatever [server_side_update]
    is: every parameter then holds the state's value for its name, and the
    client is Ready; whatever happens afterwards, it remains Ready. *)
Theorem first_download_bootstraps (self : FedAvgClient.t) (sd : gmap string tensor) h :
  FedAvgClient.initialized self = false →
  model_wf (FedAvgClient.model self) h →
  full_state (FedAvgClient.model self) sd →
  ∃ h' self',
    FedAvgClient.download self (StateDict sd) h = (h', inr self')
    ∧ (∀ n l, (n, l) ∈ named_parameters (FedAvgClient.model self) → h' !! l = sd !! n)
    ∧ FedAvgClient.initialized self' = true
    ∧ ∀ c k, reachable (self', h') (c, k) → FedAvgClient.initialized c = true.
Proof.
  intros Hinit Hwf Hfull.
  destruct (download_load self sd h) as (h1 & vs & self' & Hrun & Hlen & Hin);
    [by rewrite Hinit, orb_true_r|done..|].
  exists (h1 ++ vs), self'.
  destruct (download_fields _ _ _ _ _ Hrun) as (Hready & _).
  split_and!; [done| |done|].
  - intros n l Hmem. rewrite <- (Hin n l Hmem). apply lookup_app_l.
    rewrite Hlen. destruct Hwf as (_ & _ & Hlt).
    apply (proj1 (Forall_forall _ _) Hlt), list_elem_of_fmap. by exists (n, l).
  - intros c k Hreach. by apply (ready_forever _ _ Hreach).
Qed.

(** C7.  With [server_side_update] set, [download(S)] of a full state [S]
    followed by [upload_parameters()] gives back a dictionary that denotes
    exactly [S]. *)
Theorem server_side_round_trip (self : FedAvgClient.t) (sd : gmap string tensor) h :
  FedAvgClient.server_side_update self = true →
  model_wf (FedAvgClient.model self) h →
  full_state (FedAvgClient.model self) sd →
  ∃ h' self' st,
    FedAvgClient.download self (StateDict sd) h = (h', inr self')
    ∧ FedAvgClient.upload_parameters self' h' = (h', inr st)
    ∧ read_state h' st = sd.
Proof.
  intros Hssu Hwf Hfull.
  destruct (download_load self sd h) as (h1 & vs & self' & Hrun & Hlen & Hin);
    [by rewrite Hssu|done..|].
  destruct (download_fields _ _ _ _ _ Hrun) as (_ & Hmodel & _).
  exists (h1 ++ vs), self', (state_dict (FedAvgClient.model self')).
  split_and!; [done..|]. rewrite Hmodel. destruct Hwf as (Hnames & _ & Hlt).
  apply map_eq. intros n. unfold read_state, state_dict. rewrite lookup_omap.
  destruct (list_to_map (named_parameters (FedAvgClient.model self)) !! n)
    as [l|] eqn:Hl; cbn.
  - apply elem_of_list_to_map in Hl; [|done].
    rewrite <- (Hin n l Hl). apply lookup_app_l. rewrite Hlen.
    apply (proj1 (Forall_forall _ _) Hlt), list_elem_of_fmap. by exists (n, l).
  - apply not_elem_of_list_to_map in Hl. symmetry. apply not_elem_of_dom.
    rewrite Hfull. by rewrite elem_of_list_to_set.
Qed.

(** The gradient loop, shared by the two clients: it reads the two objects
    of each pair and writes nothing. *)
Lemma gradient_loop_run (r : scalar) (params : list loc) : ∀ (prev : list loc) h ps qs,
  values h params = Some ps → values h prev = Some qs →
  mapM (λ '(param, prev_param),
          p ← read param; q ← read prev_param; mret (tdiv (tsub q p) r))
       (zip params prev) h
  = (h, inr (zip_with (λ q p, tdiv (tsub q p) r) qs ps)).
Proof.
  induction params as [|l params IH]; intros prev h ps qs Hps Hqs.
  - apply values_Forall2, Forall2_nil_inv_l in Hps as ->. by destruct qs.
  - apply values_Forall2, Forall2_cons_inv_l in Hps as (p & ps' & Hl & Hps & ->).
    apply values_Forall2 in Hps.
    destruct prev as [|l' prev].
    { apply values_Forall2, Forall2_nil_inv_l in Hqs as ->. done. }
    apply values_Forall2, Forall2_cons_inv_l in Hqs as (q & qs' & Hl' & Hqs & ->).
    apply values_Forall2 in Hqs.
    cbn [zip zip_with mapM]. rewrite bind_run, bind_run, (read_run _ _ _ Hl). cbn.
    rewrite bind_run, (read_run _ _ _ Hl'). cbn.
    rewrite bind_run, (IH prev h ps' qs') by done. done.
Qed.

(** C4.  With the parameters and the snapshot aligned, the gradient upload
    of either client yields, at each position, (snapshot - current) /
    learning rate, as many entries as there are parameters, and leaves the
    store as it was: [FedAvgClient.upload_gradients] returns the sequence,
    [MPIFedAVGClient.upload_gradient] keeps it as [gradients] and sends it,
    tagged, to the destination; neither touches [prev_parameters]. *)
Theorem gradient_upload (self : FedAvgClient.t) (mpi : MPIFedAVGClient.t) dest
    h ps qs k ps' qs' :
  values h (Model.parameters (FedAvgClient.model self)) = Some ps →
  values h (FedAvgClient.prev_parameters self) = Some qs →
  length ps = length qs →
  values k (Model.parameters (MPIFedAVGClient.model mpi)) = Some ps' →
  values k (MPIFedAVGClient.prev_parameters mpi) = Some qs' →
  length ps' = length qs' →
  (∃ gs, FedAvgClient.upload_gradients self h = (h, inr gs)
         ∧ length gs = length ps
         ∧ ∀ i p q, ps !! i = Some p → qs !! i = Some q →
             gs !! i = Some (tdiv (tsub q p) (FedAvgClient.lr self)))
  ∧ (∃ gs mpi', MPIFedAVGClient.upload_gradient mpi dest k = (k, inr mpi')
         ∧ MPIFedAVGClient.gradients mpi' = Some gs
         ∧ Comm.sent (MPIFedAVGClient.comm mpi')
           = Comm.sent (MPIFedAVGClient.comm mpi) ++ [(gs, dest, GRADIENTS_TAG)]
         ∧ MPIFedAVGClient.prev_parameters mpi' = MPIFedAVGClient.prev_parameters mpi
         ∧ MPIFedAVGClient.model mpi' = MPIFedAVGClient.model mpi
         ∧ length gs = length ps'
         ∧ ∀ i p q, ps' !! i = Some p → qs' !! i = Some q →
             gs !! i = Some (tdiv (tsub q p) (MPIFedAVGClient.lr mpi))).
Proof.
  intros Hps Hqs Hlen Hps' Hqs' Hlen'. split.
  - eexists. unfold FedAvgClient.upload_gradients.
    rewrite (gradient_loop_run _ _ _ _ _ _ Hps Hqs). split_and!; [done| |].
    + rewrite length_zip_with. lia.
    + intros i p q Hp Hq. by rewrite lookup_zip_with, Hq, Hp.
  - eexists _, _. unfold MPIFedAVGClient.upload_gradient.
    rewrite bind_run, (gradient_loop_run _ _ _ _ _ _ Hps' Hqs'). cbn.
    split_and!; [done..| |].
    + rewrite length_zip_with. lia.
    + intros i p q Hp Hq. by rewrite lookup_zip_with, Hq, Hp.
Qed.

(** Unpacking a dictionary into a call writes nothing, and raises nothing
    but [TypeError], exactly when a key names an argument of the call. *)
Lemma unpack_cases callee pos kws (d : kwargs) h :
  (Forall (λ k, k ∉ pos ++ kws) d.*1 ∧ FedAvgClient.unpack callee pos kws d h = (h, inr ()))
  ∨ (Exists (λ k, k ∈ pos ++ kws) d.*1
     ∧ ∃ msg, FedAvgClient.unpack callee pos kws d h = (h, inl (TypeError msg))).
Proof.
  unfold FedAvgClient.unpack.
  destruct (list_find _ d.*1) as [[i k]|] eqn:Hfind.
  - right. apply list_find_Some in Hfind as (Hi & Hk & _). split; [|by eexists].
    apply Exists_exists. exists k. split; [|done]. by eapply list_elem_of_lookup_2.
  - left. by apply list_find_None in Hfind.
Qed.

(** What the constructor does before it takes the snapshot, when
    [server_side_update] is off: the store is left alone, and the call ends
    in [None] or an adapter bound to the model, in the error of the optimizer
    check, in a [TypeError] of the keyword binding, or in what the adapter's
    constructor raises. *)
Lemma setup_cases m (r : scalar) ty (kw : kwargs) h :
  ∃ out,
    (_ ← FedAvgClient.unpack "FedAvgClient._setup_optimizer_for_global_grad"
           ["self"; "optimizer_type"] [] kw;
     FedAvgClient._setup_optimizer_for_global_grad m r ty kw) h = (h, out)
    ∧ match out with
      | inr opt =>
          ty ∈ ["sgd"; "adam"; "none"] ∧ kwargs_ok ty kw
          ∧ (ty = "none" → opt = FedAvgClient.IsNone)
          ∧ (ty ≠ "none" →
               ∃ o, opt = FedAvgClient.Adapter o
                    ∧ FLOptimizer.parameters o = Model.parameters m)
      | inl e =>
          (e = NotImplementedError
                 (ty ++ " is not supported. You can specify `sgd`, `adam`, or `none`.")
           ∧ (ty ∉ ["sgd"; "adam"; "none"]) ∧ ¬ kwargs_clash ty kw)
          ∨ ((∃ msg, e = TypeError msg) ∧ kwargs_clash ty kw)
          ∨ (∃ kind, adapter_of ty = Some kind ∧ ¬ kwargs_clash ty kw
                     ∧ rejects kind kw = Some e)
      end.
Proof.
  rewrite bind_run.
  destruct (unpack_cases "FedAvgClient._setup_optimizer_for_global_grad"
              ["self"; "optimizer_type"] [] kw h) as [[Hfree ->]|[Hclash [msg ->]]].
  2:{ eexists. split; [done|]. right. left. split; [by eexists|]. by left. }
  assert (Hnoclash : ¬ Exists (λ k, k ∈ ["self"; "optimizer_type"]) kw.*1).
  { by apply Forall_not_Exists. }
  unfold FedAvgClient._setup_optimizer_for_global_grad.
  assert (Hadapter : ∀ name kind, adapter_of ty = Some kind →
    ∃ out, (_ ← FedAvgClient.unpack name [] ["lr"] kw;
            FedAvgClient.Adapter <$> FLOptimizer.__init__ kind (Model.parameters m) r kw) h
           = (h, out)
      ∧ match out with
        | inr opt => kwargs_ok ty kw
                     ∧ ∃ o, opt = FedAvgClient.Adapter o
                            ∧ FLOptimizer.parameters o = Model.parameters m
        | inl e => ((∃ msg, e = TypeError msg) ∧ kwargs_clash ty kw)
                   ∨ (¬ kwargs_clash ty kw ∧ rejects kind kw = Some e)
        end).
  { intros name kind Hkind. rewrite bind_run.
    destruct (unpack_cases name [] ["lr"] kw h) as [[Hnolr ->]|[Hclash [msg ->]]].
    - assert (Hfine : ¬ kwargs_clash ty kw).
      { intros [?|[_ Hlr]]; [done|].
        apply (proj1 (Forall_forall _ _) Hnolr) in Hlr. apply Hlr. cbn. by left. }
      rewrite fmap_run. unfold FLOptimizer.__init__.
      destruct (rejects kind kw) as [e|] eqn:Hrej; eexists; (split; [done|]).
      + by right.
      + split; [|by eexists]. split; [done|]. intros kind'. rewrite Hkind. by intros [= <-].
    - eexists. split; [done|]. left. split; [by eexists|]. right.
      split; [by rewrite Hkind|].
      apply Exists_exists in Hclash as (k & Hk & Hin). cbn in Hin.
      apply elem_of_cons in Hin as [->|Hin]; [done|]. by apply elem_of_nil in Hin. }
  unfold adapter_of in Hadapter.
  destruct (decide (ty = "sgd")) as [->|Hsgd];
    [|destruct (decide (ty = "adam")) as [->|Hadam];
      [|destruct (decide (ty = "none")) as [->|Hnone]]].
  - destruct (Hadapter "SGDFLOptimizer" SGD eq_refl) as ([e|opt] & -> & Hout); eexists;
      (split; [done|]).
    + destruct Hout as [?|[? ?]]; [by right; left|right; right; by exists SGD].
    + destruct Hout as [Hok Ho]. split_and!; [rewrite !elem_of_cons; tauto|done..].
  - destruct (Hadapter "AdamFLOptimizer" Adam eq_refl) as ([e|opt] & -> & Hout); eexists;
      (split; [done|]).
    + destruct Hout as [?|[? ?]]; [by right; left|right; right; by exists Adam].
    + destruct Hout as [Hok Ho]. split_and!; [rewrite !elem_of_cons; tauto|done..].
  - eexists. split; [done|].
    split_and!; [rewrite !elem_of_cons; tauto| |done|done].
    split; [|done]. by intros [?|[[? [=]] _]].
  - eexists. split; [done|]. left. split_and!; [done| |].
    + rewrite !elem_of_cons, elem_of_nil. tauto.
    + unfold kwargs_clash, adapter_of. rewrite !decide_False by done.
      by intros [?|[[? [=]] _]].
Qed.

(** The constructor returns on a model of the store, when it does not have
    to set up an adapter or can. *)
Lemma init_returns m uid (r : scalar) sg ty ssu (kw : kwargs) dev h :
  model_wf m h → ssu = true ∨ (ty ∈ ["sgd"; "adam"; "none"] ∧ kwargs_ok ty kw) →
  ∃ vs c, FedAvgClient.__init__ m uid r sg ty ssu kw dev h = (h ++ vs, inr c)
          ∧ FedAvgClient.model c = m
          ∧ FedAvgClient.initialized c = false
          ∧ FedAvgClient.server_side_update c = ssu
          ∧ (ssu = false → ty = "none" →
               FedAvgClient.optimizer_for_gloal_grad c = FedAvgClient.IsNone)
          ∧ (ssu = false → ty ≠ "none" →
               ∃ o, FedAvgClient.optimizer_for_gloal_grad c = FedAvgClient.Adapter o
                    ∧ FLOptimizer.parameters o = Model.parameters m).
Proof.
  intros Hwf Hok.
  destruct (values_is_Some h (Model.parameters m)) as [vs Hvs]; [by destruct Hwf as (_ & _ & ?)|].
  exists vs. unfold FedAvgClient.__init__. rewrite bind_run.
  destruct ssu; cbn [negb].
  - cbn. rewrite bind_run, (snapshot_run _ _ _ Hvs). cbn. eexists.
    split_and!; done.
  - destruct Hok as [|[Hty [Hfree Htakes]]]; [done|].
    destruct (setup_cases m r ty kw h) as ([e|opt] & -> & Hout).
    + exfalso. destruct Hout as [(_ & Hno & _)|[[_ Hclash]|(kind & Hkind & _ & Hrej)]];
        [done..|]. by rewrite (Htakes kind Hkind) in Hrej.
    + destruct Hout as (_ & _ & Hnone & Hadapter).
      rewrite bind_run, (snapshot_run _ _ _ Hvs). cbn. eexists.
      split_and!; [done..| |].
      * intros _ Hty'. by rewrite (Hnone Hty').
      * intros _ Hty'. destruct (Hadapter Hty') as (o & -> & Hpar). by exists o.
Qed.

(** Every error of the constructor comes from the set-up of the adapter and
    leaves the store alone. *)
Lemma init_raises m uid (r : scalar) sg ty ssu (kw : kwargs) dev h h' e :
  model_wf m h →
  FedAvgClient.__init__ m uid r sg ty ssu kw dev h = (h', inl e) →
  h' = h ∧ ssu = false
  ∧ ((e = NotImplementedError
            (ty ++ " is not supported. You can specify `sgd`, `adam`, or `none`.")
      ∧ (ty ∉ ["sgd"; "adam"; "none"]) ∧ ¬ kwargs_clash ty kw)
     ∨ ((∃ msg, e = TypeError msg) ∧ kwargs_clash ty kw)
     ∨ (∃ kind, adapter_of ty = Some kind ∧ ¬ kwargs_clash ty kw
                ∧ rejects kind kw = Some e)).
Proof.
  intros Hwf.
  destruct (values_is_Some h (Model.parameters m)) as [vs Hvs]; [by destruct Hwf as (_ & _ & ?)|].
  unfold FedAvgClient.__init__. rewrite bind_run. destruct ssu; cbn [negb].
  - cbn. by rewrite bind_run, (snapshot_run _ _ _ Hvs).
  - destruct (setup_cases m r ty kw h) as ([e'|opt] & -> & Hout).
    + by intros [= <- <-].
    + by rewrite bind_run, (snapshot_run _ _ _ Hvs).
Qed.

(** A constructor call that returned was one that could. *)
Lemma init_inv m uid (r : scalar) sg ty ssu (kw : kwargs) dev h h' c :
  FedAvgClient.__init__ m uid r sg ty ssu kw dev h = (h', inr c) →
  ssu = true ∨ (ty ∈ ["sgd"; "adam"; "none"] ∧ kwargs_ok ty kw).
Proof.
  unfold FedAvgClient.__init__. rewrite bind_run. destruct ssu; cbn [negb]; [by left|].
  destruct (setup_cases m r ty kw h) as ([e'|opt] & -> & Hout); [done|].
  intros _. right. by destruct Hout as (? & ? & _).
Qed.

(** C6, as the code has it.  Constructing a client with
    [server_side_update=False], an optimizer type other than [sgd], [adam],
    [none], and keyword arguments none of which is called [self] or
    [optimizer_type], raises [NotImplementedError] with the message that
    names the three, the store untouched.  It is the only error the
    constructor checks for: whenever the constructor raises,
    [server_side_update] is off and the store is untouched, and the error is
    either this one, or the [TypeError] of a keyword that names an argument
    the constructor passes itself, or what the constructor of the adapter
    raises on the keyword arguments; in every other case the constructor
    returns.  With [server_side_update=True] neither the type nor the keyword
    arguments play a part in what it computes. *)
Theorem unsupported_optimizer_rejected m uid (r : scalar) sg ty (kw : kwargs) dev h :
  ty ∉ ["sgd"; "adam"; "none"] → ¬ kwargs_clash ty kw →
  FedAvgClient.__init__ m uid r sg ty false kw dev h
  = (h, inl (NotImplementedError
       (ty ++ " is not supported. You can specify `sgd`, `adam`, or `none`.")))
  ∧ (∀ ty' ssu (kw' : kwargs) k k' e,
       model_wf m k →
       FedAvgClient.__init__ m uid r sg ty' ssu kw' dev k = (k', inl e) →
       k' = k ∧ ssu = false
       ∧ ((e = NotImplementedError
                 (ty' ++ " is not supported. You can specify `sgd`, `adam`, or `none`.")
           ∧ (ty' ∉ ["sgd"; "adam"; "none"]) ∧ ¬ kwargs_clash ty' kw')
          ∨ ((∃ msg, e = TypeError msg) ∧ kwargs_clash ty' kw')
          ∨ (∃ kind, adapter_of ty' = Some kind ∧ ¬ kwargs_clash ty' kw'
                     ∧ rejects kind kw' = Some e)))
  ∧ (∀ ty' ssu (kw' : kwargs) k,
       model_wf m k → ssu = true ∨ (ty' ∈ ["sgd"; "adam"; "none"] ∧ kwargs_ok ty' kw') →
       ∃ k' c, FedAvgClient.__init__ m uid r sg ty' ssu kw' dev k = (k', inr c))
  ∧ (∀ ty' (kw' : kwargs),
       FedAvgClient.__init__ m uid r sg ty' true kw' dev
       = FedAvgClient.__init__ m uid r sg ty true kw dev).
Proof.
  intros Hty Hfree. split_and!.
  - unfold FedAvgClient.__init__. rewrite bind_run. cbn [negb].
    destruct (setup_cases m r ty kw h) as ([e|opt] & -> & Hout).
    + destruct Hout as [(-> & _)|[[_ Hclash]|(kind & Hkind & _)]]; [done..|].
      exfalso. revert Hkind. unfold adapter_of.
      rewrite !decide_False; [done|intros ->; apply Hty; rewrite !elem_of_cons; tauto..].
    + by destruct Hout as (? & _).
  - intros ty' ssu kw' k k' e Hwf Hrun. by eapply init_raises.
  - intros ty' ssu kw' k Hwf Hok.
    destruct (init_returns m uid r sg ty' ssu kw' dev k Hwf Hok) as (vs & c & Hrun & _).
    by eexists _, _.
  - done.
Qed.

(** A Ready client that applies updates itself and holds [None] for an
    adapter cannot take another download. *)
Lemma download_none (self : FedAvgClient.t) g h :
  FedAvgClient.server_side_update self = false →
  FedAvgClient.initialized self = true →
  FedAvgClient.optimizer_for_gloal_grad self = FedAvgClient.IsNone →
  FedAvgClient.download self g h
  = (h, inl (AttributeError "'NoneType' object has no attribute 'step'")).
Proof.
  intros Hssu Hinit Hopt. unfold FedAvgClient.download.
  rewrite bind_run, Hssu, Hinit, Hopt. cbn [orb negb].
  by rewrite bind_run, revert_run.
Qed.

(** With an adapter bound to the model, an aligned update is taken. *)
Lemma download_adapter (self : FedAvgClient.t) o gs h :
  FedAvgClient.server_side_update self = false →
  FedAvgClient.initialized self = true →
  FedAvgClient.optimizer_for_gloal_grad self = FedAvgClient.Adapter o →
  FLOptimizer.parameters o = Model.parameters (FedAvgClient.model self) →
  model_wf (FedAvgClient.model self) h →
  length gs = length (Model.parameters (FedAvgClient.model self)) →
  ∃ h' self', FedAvgClient.download self (TensorList gs) h = (h', inr self').
Proof.
  intros Hssu Hinit Hopt Hbound (_ & _ & Hin) Hlen.
  destruct (step_run o gs h) as (h1 & o' & Hstep & _); [by rewrite Hbound..|].
  destruct (values_is_Some h1 (Model.parameters (FedAvgClient.model self))) as [vs Hvs].
  { by rewrite (step_length _ _ _ _ _ Hstep). }
  eexists _, _. unfold FedAvgClient.download.
  rewrite bind_run, Hssu, Hinit, Hopt. cbn [orb negb].
  rewrite bind_run, revert_run, fmap_run, Hstep.
  by rewrite bind_run, (snapshot_run _ _ _ Hvs).
Qed.

Lemma none_forever x y :
  reachable x y →
  FedAvgClient.optimizer_for_gloal_grad x.1 = FedAvgClient.IsNone
  ∧ FedAvgClient.server_side_update x.1 = false →
  FedAvgClient.optimizer_for_gloal_grad y.1 = FedAvgClient.IsNone
  ∧ FedAvgClient.server_side_update y.1 = false.
Proof.
  induction 1 as [|x y z Hstep _ IH]; [done|]. intros [Hopt Hssu]. apply IH.
  destruct Hstep as [self g h h' self' Hrun| |]; [|done..].
  apply download_fields in Hrun as (_ & _ & Hssu' & Hnone & _). cbn in *.
  split; [by apply Hnone|congruence].
Qed.

Lemma adapter_forever m x y :
  reachable x y →
  (FedAvgClient.model x.1 = m ∧ model_wf m x.2
   ∧ FedAvgClient.server_side_update x.1 = false
   ∧ ∃ o, FedAvgClient.optimizer_for_gloal_grad x.1 = FedAvgClient.Adapter o
          ∧ FLOptimizer.parameters o = Model.parameters m) →
  (FedAvgClient.model y.1 = m ∧ model_wf m y.2
   ∧ FedAvgClient.server_side_update y.1 = false
   ∧ ∃ o, FedAvgClient.optimizer_for_gloal_grad y.1 = FedAvgClient.Adapter o
          ∧ FLOptimizer.parameters o = Model.parameters m).
Proof.
  induction 1 as [|x y z Hstep _ IH]; [done|].
  intros (Hm & Hwf & Hssu & o & Hopt & Hbound). apply IH.
  destruct Hstep as [self g h h' self' Hrun|self g h h' e Hrun|self h h' Hle]; cbn in *.
  - pose proof (download_grows _ _ _ _ _ Hrun) as Hle.
    apply download_fields in Hrun as (_ & Hm' & Hssu' & _ & Hadapter).
    destruct (Hadapter o Hopt) as (o' & Hopt' & Hpar).
    split_and!; [congruence|by eapply model_wf_length|congruence|].
    exists o'. split; [done|congruence].
  - apply download_grows in Hrun.
    split_and!; [done|by eapply model_wf_length|done|by exists o].
  - split_and!; [done|by eapply model_wf_length|done|by exists o].
Qed.

(** C10.  A client constructed with [server_side_update=False] and the
    optimizer type [none] holds [None] for an adapter.  Its first [download],
    of a full state, returns and leaves it Ready; from then on, whatever
    happens in between, every [download] raises the attribute error of
    [None.step], the store untouched.  Constructed with [sgd] or [adam]
    instead, the client after its first download takes every update that has
    one entry per parameter. *)
Theorem none_adapter_breaks_later_downloads m uid (r : scalar) sg (kw : kwargs) dev h c0 h0
    (sd : gmap string tensor) :
  model_wf m h → full_state m sd →
  FedAvgClient.__init__ m uid r sg "none" false kw dev h = (h0, inr c0) →
  (∃ h1 c1,
     FedAvgClient.download c0 (StateDict sd) h0 = (h1, inr c1)
     ∧ FedAvgClient.initialized c1 = true
     ∧ ∀ c k g, reachable (c1, h1) (c, k) →
         FedAvgClient.download c g k
         = (k, inl (AttributeError "'NoneType' object has no attribute 'step'")))
  ∧ (∀ ty c0' k0,
       ty ∈ ["sgd"; "adam"] →
       FedAvgClient.__init__ m uid r sg ty false kw dev h = (k0, inr c0') →
       ∃ k1 c1',
         FedAvgClient.download c0' (StateDict sd) k0 = (k1, inr c1')
         ∧ FedAvgClient.initialized c1' = true
         ∧ ∀ c k gs, reachable (c1', k1) (c, k) →
             length gs = length (Model.parameters m) →
             ∃ k' c', FedAvgClient.download c (TensorList gs) k = (k', inr c')).
Proof.
  intros Hwf Hfull Hnew.
  assert (Hfirst : ∀ ty c h', FedAvgClient.__init__ m uid r sg ty false kw dev h = (h', inr c) →
    FedAvgClient.model c = m ∧ model_wf m h'
    ∧ (ty = "none" → FedAvgClient.optimizer_for_gloal_grad c = FedAvgClient.IsNone)
    ∧ (ty ≠ "none" →
         ∃ o, FedAvgClient.optimizer_for_gloal_grad c = FedAvgClient.Adapter o
              ∧ FLOptimizer.parameters o = Model.parameters m)
    ∧ ∃ h1 c1, FedAvgClient.download c (StateDict sd) h' = (h1, inr c1)
         ∧ length h' ≤ length h1).
  { intros ty c h' Hrun. pose proof (init_inv _ _ _ _ _ _ _ _ _ _ _ Hrun) as Hok.
    destruct (init_returns m uid r sg ty false kw dev h Hwf Hok)
      as (vs & c' & Hrun' & Hm & Hinit & Hssu & Hnone & Hadapter).
    rewrite Hrun in Hrun'. injection Hrun' as -> ->.
    assert (Hwf' : model_wf m (h ++ vs)).
    { eapply model_wf_length; [|exact Hwf]. rewrite length_app. lia. }
    split_and!; [done..|by apply Hnone|by apply Hadapter|].
    destruct (download_load c' sd (h ++ vs)) as (h1 & ws & c1 & Hload & Hlen & _);
      [by rewrite Hinit, orb_true_r|by rewrite Hm..|].
    exists (h1 ++ ws), c1. split; [done|]. rewrite (length_app h1), Hlen. lia. }
  split.
  - destruct (Hfirst _ _ _ Hnew) as (Hm & _ & Hnone & _ & h1 & c1 & Hload & _).
    exists h1, c1.
    destruct (download_fields _ _ _ _ _ Hload) as (Hready & _ & Hssu & Hkeep & _).
    assert (Hssu0 : FedAvgClient.server_side_update c0 = false).
    { pose proof (init_inv _ _ _ _ _ _ _ _ _ _ _ Hnew) as Hok.
      destruct (init_returns m uid r sg "none" false kw dev h Hwf Hok)
        as (vs & c' & Hrun' & _ & _ & Hssu' & _).
      rewrite Hnew in Hrun'. by injection Hrun' as _ ->. }
    split_and!; [done..|]. intros c k g Hreach.
    destruct (none_forever _ _ Hreach) as [Hopt Hoff].
    { cbn. split; [by apply Hkeep, Hnone|congruence]. }
    apply download_none; [done| |done].
    by apply (ready_forever _ _ Hreach).
  - intros ty c0' k0 Hty Hnew'.
    assert (Hnot : ty ≠ "none").
    { intros ->. repeat (apply elem_of_cons in Hty as [?|Hty]; [done|]).
      by apply elem_of_nil in Hty. }
    destruct (Hfirst _ _ _ Hnew') as (Hm & Hwf0 & _ & Hadapter & k1 & c1 & Hload & Hle).
    destruct (Hadapter Hnot) as (o & Hopt & Hbound).
    exists k1, c1.
    destruct (download_fields _ _ _ _ _ Hload) as (Hready & Hm1 & Hssu & _ & Hkeep).
    destruct (Hkeep o Hopt) as (o1 & Hopt1 & Hbound1).
    assert (Hssu0 : FedAvgClient.server_side_update c0' = false).
    { pose proof (init_inv _ _ _ _ _ _ _ _ _ _ _ Hnew') as Hok.
      destruct (init_returns m uid r sg ty false kw dev h Hwf Hok)
        as (vs & c' & Hrun' & _ & _ & Hssu' & _).
      rewrite Hnew' in Hrun'. by injection Hrun' as _ ->. }
    split_and!; [done..|]. intros c k gs Hreach Hlen.
    destruct (adapter_forever m _ _ Hreach) as (Hmc & Hwfc & Hssuc & o' & Hopt' & Hbound').
    { cbn. split_and!; [congruence|by eapply model_wf_length|congruence|].
      exists o1. split; [done|congruence]. }
    cbn in Hmc, Hwfc, Hssuc, Hopt'.
    apply (download_adapter c o' gs k); rewrite ?Hmc; try done.
    by apply (ready_forever _ _ Hreach).
Qed.
End client_claims.

(** ** The clients on a model of two parameters *)

Module OnNet.
Import Concrete.
#[local] Existing Instance Q_tensors.
#[local] Existing Instance descent.

Lemma net_wf (h : heap Q) : 2 ≤ length h → model_wf net h.
Proof.
  intros Hlen. split_and!; [compute_done..|].
  repeat constructor; cbn; lia.
Qed.

Lemma S1_full : full_state net S1.
Proof. compute_done. Qed.

Lemma new_client_run ty ssu :
  ty = "sgd" ∨ ty = "none" →
  new_client ty ssu h0 = (h1, inr (built ty ssu)).
Proof. by intros [-> | ->]; destruct ssu. Qed.

Lemma first_download_run ty ssu :
  ty = "sgd" ∨ ty = "none" →
  FedAvgClient.download (built ty ssu) (StateDict S1) h1 = (h2, inr (ready ty ssu)).
Proof. by intros [-> | ->]; destruct ssu; vm_compute. Qed.

(** C1.  After the first download has loaded [w = 1], local training moves
    [w] to 5 and a download brings the zero update.  The claim has [w]
    reverted to its snapshot value 1 before the step, as the download of
    the specification does; in the code [revert] writes nothing and the step
    is applied to the trained value: [w] is 5. *)
Theorem revert_keeps_local_training :
  (train_then_download h0).2 = inr (5 # 1)%Q
  ∧ (train_then_download_as_specified h0).2 = inr (1 # 1)%Q.
Proof. split; by vm_compute. Qed.

Lemma download_snapshot_refresh_witness :
  (FedAvgClient.prev_parameters (ready "sgd" false)
     = seq (length h1) (length (Model.parameters (FedAvgClient.model (built "sgd" false))))
   ∧ is_Some (values h2 (Model.parameters (FedAvgClient.model (built "sgd" false))))
   ∧ values h2 (FedAvgClient.prev_parameters (ready "sgd" false))
     = values h2 (Model.parameters (FedAvgClient.model (built "sgd" false))))
  ∧ (MPIFedAVGClient.prev_parameters mpi_received = MPIFedAVGClient.prev_parameters mpi
     ∧ values [7 # 1; 8 # 1; 1 # 2; 3 # 1]%Q (MPIFedAVGClient.prev_parameters mpi_received)
       = values h1 (MPIFedAVGClient.prev_parameters mpi)).
Proof.
  apply (@download_snapshot_refresh Q_tensors descent (built "sgd" false)
           (@StateDict Q_tensors S1) h1 h2
           (ready "sgd" false) mpi h1 [7 # 1; 8 # 1; 1 # 2; 3 # 1]%Q mpi_received).
  - apply net_wf. cbn. lia.
  - apply first_download_run. by left.
  - intros l Hl Hl'. cbn in Hl, Hl'.
    rewrite !elem_of_cons, elem_of_nil in Hl. rewrite !elem_of_cons, elem_of_nil in Hl'. lia.
  - by vm_compute.
Defined.

Lemma first_download_bootstraps_witness :
  ∃ h' self',
    FedAvgClient.download (built "sgd" false) (StateDict S1) h1 = (h', inr self')
    ∧ (∀ n l, (n, l) ∈ named_parameters (FedAvgClient.model (built "sgd" false)) →
         h' !! l = S1 !! n)
    ∧ FedAvgClient.initialized self' = true
    ∧ ∀ c k, reachable (self', h') (c, k) → FedAvgClient.initialized c = true.
Proof.
  apply (@first_download_bootstraps Q_tensors descent (built "sgd" false) S1 h1).
  - reflexivity.
  - apply net_wf. cbn. lia.
  - exact S1_full.
Defined.

Lemma server_side_round_trip_witness :
  ∃ h' self' st,
    FedAvgClient.download (built "sgd" true) (StateDict S1) h1 = (h', inr self')
    ∧ FedAvgClient.upload_parameters self' h' = (h', inr st)
    ∧ read_state h' st = S1.
Proof.
  apply (@server_side_round_trip Q_tensors descent (built "sgd" true) S1 h1).
  - reflexivity.
  - apply net_wf. cbn. lia.
  - exact S1_full.
Defined.

Lemma gradient_upload_witness :
  (∃ gs, FedAvgClient.upload_gradients (built "sgd" false) trained = (trained, inr gs)
         ∧ length gs = length [1 # 1; 2 # 1]%Q
         ∧ ∀ i p q, [1 # 1; 2 # 1]%Q !! i = Some p → [3 # 1; 5 # 1]%Q !! i = Some q →
             gs !! i = Some (tdiv (tsub q p) (FedAvgClient.lr (built "sgd" false))))
  ∧ (∃ gs mpi', MPIFedAVGClient.upload_gradient mpi 0 trained = (trained, inr mpi')
         ∧ MPIFedAVGClient.gradients mpi' = Some gs
         ∧ Comm.sent (MPIFedAVGClient.comm mpi')
           = Comm.sent (MPIFedAVGClient.comm mpi) ++ [(gs, 0%Z, GRADIENTS_TAG)]
         ∧ MPIFedAVGClient.prev_parameters mpi' = MPIFedAVGClient.prev_parameters mpi
         ∧ MPIFedAVGClient.model mpi' = MPIFedAVGClient.model mpi
         ∧ length gs = length [1 # 1; 2 # 1]%Q
         ∧ ∀ i p q, [1 # 1; 2 # 1]%Q !! i = Some p → [3 # 1; 5 # 1]%Q !! i = Some q →
             gs !! i = Some (tdiv (tsub q p) (MPIFedAVGClient.lr mpi))).
Proof.
  apply (@gradient_upload Q_tensors descent (built "sgd" false) mpi 0 trained
           [1 # 1; 2 # 1]%Q [3 # 1; 5 # 1]%Q trained [1 # 1; 2 # 1]%Q [3 # 1; 5 # 1]%Q);
    reflexivity.
Defined.

Lemma momentum_binds : ¬ kwargs_clash "bogus" momentum.
Proof.
  intros [Hclash|[[kind [=]] _]]. apply Exists_exists in Hclash as (k & Hk & Hin).
  cbn in Hk. rewrite elem_of_cons, elem_of_nil in Hk. destruct Hk as [->|[]].
  rewrite !elem_of_cons, elem_of_nil in Hin. by destruct Hin as [[=]|[[=]|[]]].
Qed.

Lemma unsupported_optimizer_rejected_witness :
  FedAvgClient.__init__ net 0 (1 # 10)%Q true "bogus" false momentum "cpu" h0
  = (h0, inl (NotImplementedError
       "bogus is not supported. You can specify `sgd`, `adam`, or `none`."))
  ∧ (∀ ty' ssu (kw' : kwargs) k k' e,
       model_wf net k →
       FedAvgClient.__init__ net 0 (1 # 10)%Q true ty' ssu kw' "cpu" k = (k', inl e) →
       k' = k ∧ ssu = false
       ∧ ((e = NotImplementedError
                 (ty' ++ " is not supported. You can specify `sgd`, `adam`, or `none`.")
           ∧ (ty' ∉ ["sgd"; "adam"; "none"]) ∧ ¬ kwargs_clash ty' kw')
          ∨ ((∃ msg, e = TypeError msg) ∧ kwargs_clash ty' kw')
          ∨ (∃ kind, adapter_of ty' = Some kind ∧ ¬ kwargs_clash ty' kw'
                     ∧ rejects kind kw' = Some e)))
  ∧ (∀ ty' ssu (kw' : kwargs) k,
       model_wf net k → ssu = true ∨ (ty' ∈ ["sgd"; "adam"; "none"] ∧ kwargs_ok ty' kw') →
       ∃ k' c, FedAvgClient.__init__ net 0 (1 # 10)%Q true ty' ssu kw' "cpu" k = (k', inr c))
  ∧ (∀ ty' (kw' : kwargs),
       FedAvgClient.__init__ net 0 (1 # 10)%Q true ty' true kw' "cpu"
       = FedAvgClient.__init__ net 0 (1 # 10)%Q true "bogus" true momentum "cpu").
Proof.
  apply (@unsupported_optimizer_rejected Q_tensors descent net 0 (1 # 10)%Q true "bogus"
           momentum "cpu" h0).
  - rewrite !elem_of_cons, elem_of_nil. intros [[=]|[[=]|[[=]|[]]]].
  - exact momentum_binds.
Defined.

(** C6, as the claim states it, fails: with an optimizer type outside the
    three and [server_side_update=False], keyword arguments that hold the key
    [optimizer_type] make the call of the setup method raise [TypeError]; the
    optimizer check is not reached. *)
Lemma clashing_keyword_before_optimizer_check :
  ("bogus" ∉ ["sgd"; "adam"; "none"])
  ∧ (∃ msg, FedAvgClient.__init__ net 0 (1 # 10)%Q true "bogus" false clashing "cpu" h0
            = (h0, inl (TypeError msg)))
  ∧ ∀ msg, FedAvgClient.__init__ net 0 (1 # 10)%Q true "bogus" false clashing "cpu" h0
           ≠ (h0, inl (NotImplementedError msg)).
Proof.
  split_and!; [|by eexists; vm_compute|by vm_compute].
  rewrite !elem_of_cons, elem_of_nil. intros [[=]|[[=]|[[=]|[]]]].
Qed.

Lemma none_adapter_breaks_later_downloads_witness :
  (∃ k1 c1,
     FedAvgClient.download (built "none" false) (StateDict S1) h1 = (k1, inr c1)
     ∧ FedAvgClient.initialized c1 = true
     ∧ ∀ c k g, reachable (c1, k1) (c, k) →
         FedAvgClient.download c g k
         = (k, inl (AttributeError "'NoneType' object has no attribute 'step'")))
  ∧ (∀ ty c0' k0,
       ty ∈ ["sgd"; "adam"] →
       FedAvgClient.__init__ net 0 (1 # 10)%Q true ty false [] "cpu" h0 = (k0, inr c0') →
       ∃ k1 c1',
         FedAvgClient.download c0' (StateDict S1) k0 = (k1, inr c1')
         ∧ FedAvgClient.initialized c1' = true
         ∧ ∀ c k gs, reachable (c1', k1) (c, k) →
             length gs = length (Model.parameters net) →
             ∃ k' c', FedAvgClient.download c (TensorList gs) k = (k', inr c')).
Proof.
  apply (@none_adapter_breaks_later_downloads Q_tensors descent net 0 (1 # 10)%Q true []
           "cpu" h0 (built "none" false) h1 S1).
  - apply net_wf. cbn. lia.
  - exact S1_full.
  - reflexivity.
Defined.

End OnNet.

(** ** [PaillierTensor] *)

Section wrapper_facts.
Context `{Scalars}.
Import Np PaillierTensor Wrapped.
Implicit Types (h : heap obj) (l arr : loc).

Lemma lookup_new {C} (h : heap C) (x : C) (ext : list C) :
  (h ++ x :: ext) !! length h = Some x.
Proof. by apply list_lookup_middle. Qed.

(** Membership of a type in a list of types, and equations of types. *)
Ltac type_facts :=
  first [done | rewrite ?elem_of_cons, ?elem_of_nil; intuition congruence].

Lemma type_ref_run h l o :
  h !! l = Some o →
  type (PyRef l) h
  = (h, inr match o with
            | ONdarray _ => Tndarray
            | OTensor _ => TTensor
            | OPaillierTensor _ => TPaillierTensor
            end).
Proof. intros Hl. unfold type. by rewrite bind_run, (read_run _ _ _ Hl). Qed.

Lemma attr_run h l arr :
  h !! l = Some (OPaillierTensor arr) →
  _paillier_np_array_of (PyRef l) h = (h, inr (PyRef arr)).
Proof. intros Hl. unfold _paillier_np_array_of. by rewrite bind_run, (read_run _ _ _ Hl). Qed.

Lemma as_npval_ref_run h l a :
  h !! l = Some (ONdarray a) → as_npval (PyRef l) h = (h, inr (Arr a)).
Proof. intros Hl. unfold as_npval. by rewrite bind_run, (read_run _ _ _ Hl). Qed.

Lemma numpy_tensor_run h l t :
  h !! l = Some (OTensor t) →
  numpy_method (PyRef l) h = (h ++ [ONdarray t], inr (PyRef (length h))).
Proof. intros Hl. unfold numpy_method. by rewrite bind_run, (read_run _ _ _ Hl). Qed.

Lemma numpy_wrapper_run h l arr :
  h !! l = Some (OPaillierTensor arr) →
  numpy_method (PyRef l) h = (h, inr (PyRef arr)).
Proof.
  intros Hl. unfold numpy_method. rewrite bind_run, (read_run _ _ _ Hl).
  by apply attr_run.
Qed.

Lemma init_run h arr a :
  h !! arr = Some (ONdarray a) →
  __init__ (PyRef arr) h = (h ++ [OPaillierTensor arr], inr (PyRef (length h))).
Proof. intros Hl. unfold __init__. by rewrite bind_run, (type_ref_run _ _ _ Hl). Qed.

Lemma init_scalar_run h e :
  __init__ (PyScalar e) h = (h, inl (TypeError (repr Tobject ++ " is not supported."))).
Proof. done. Qed.

(** An operator of numpy, on operands whose values are known. *)
Lemma np_operator_run f x y vx vy h :
  as_npval x h = (h, inr vx) → as_npval y h = (h, inr vy) →
  np_operator f x y h
  = match binop f vx vy with
    | inl e => (h, inl e)
    | inr (Arr r) => (h ++ [ONdarray r], inr (PyRef (length h)))
    | inr (Scal e) => (h, inr (PyScalar e))
    end.
Proof.
  intros Hx Hy. unfold np_operator. rewrite bind_run, Hx, bind_run, Hy.
  by destruct (binop f vx vy) as [e|[r|e]].
Qed.

(** The operator followed by the constructor call. *)
Lemma wrap_run f arr a y vy h :
  h !! arr = Some (ONdarray a) → as_npval y h = (h, inr vy) →
  (r ← np_operator f (PyRef arr) y; __init__ r) h
  = match binop f (Arr a) vy with
    | inl e => (h, inl e)
    | inr (Arr r) =>
        (h ++ [ONdarray r; OPaillierTensor (length h)], inr (PyRef (S (length h))))
    | inr (Scal e) => (h, inl (TypeError (repr Tobject ++ " is not supported.")))
    end.
Proof.
  intros Harr Hy.
  rewrite bind_run, (np_operator_run f _ _ (Arr a) vy) by (by apply as_npval_ref_run || done).
  destruct (binop f (Arr a) vy) as [e|[r|e]]; [done| |done].
  rewrite (init_run _ _ r) by apply lookup_new.
  by rewrite length_app, Nat.add_1_r, <- app_assoc.
Qed.
Lemma is_wrapper_app h ext v a : is_wrapper h v a → is_wrapper (h ++ ext) v a.
Proof.
  intros (l & arr & -> & Hl & Harr). exists l, arr.
  split_and!; [done|by apply lookup_app_l_Some..].
Qed.

Lemma new_wrapper k r :
  is_wrapper (k ++ [ONdarray r; OPaillierTensor (length k)]) (PyRef (S (length k))) r.
Proof.
  exists (S (length k)), (length k). split_and!; [done| |by apply lookup_new].
  rewrite lookup_app_r by lia. by replace (S (length k) - length k) with 1 by lia.
Qed.

(** The operator and the constructor call, run in a store [h ++ pre] on an
    array of [h]. *)
Lemma wrap_returns f arr a y vy h pre :
  h !! arr = Some (ONdarray a) →
  as_npval y (h ++ pre) = (h ++ pre, inr vy) →
  returns_wrapper h ((r ← np_operator f (PyRef arr) y; __init__ r) (h ++ pre))
    (wrap (binop f (Arr a) vy)).
Proof.
  intros Harr Hy.
  rewrite (wrap_run f arr a y vy) by (by apply lookup_app_l_Some || done).
  destruct (binop f (Arr a) vy) as [e|[r|e]]; cbn.
  - by exists pre.
  - exists (pre ++ [ONdarray r; OPaillierTensor (length (h ++ pre))]).
    rewrite app_assoc. split; [done|]. eexists. split_and!; [done| |apply new_wrapper].
    rewrite length_app. lia.
  - by exists pre.
Qed.

Lemma wrap_returns_here f arr a y vy h :
  h !! arr = Some (ONdarray a) →
  as_npval y h = (h, inr vy) →
  returns_wrapper h ((r ← np_operator f (PyRef arr) y; __init__ r) h)
    (wrap (binop f (Arr a) vy)).
Proof.
  intros Harr Hy. pose proof (wrap_returns f arr a y vy h []) as Hw.
  rewrite app_nil_r in Hw. by apply Hw.
Qed.

Lemma denotes_numpy h b t :
  denotes h b (Array t) →
  ∃ pre lo, numpy_method b h = (h ++ pre, inr (PyRef lo))
            ∧ (h ++ pre) !! lo = Some (ONdarray t).
Proof.
  inversion 1 as [| |l t' Hl|l arr t' Hl Harr]; subst.
  - exists [ONdarray t], (length h). split; [by apply numpy_tensor_run|apply lookup_new].
  - exists [], arr. rewrite app_nil_r. split; [by apply numpy_wrapper_run|done].
Qed.

Lemma denotes_type h b opd :
  denotes h b opd →
  ∃ ty, type b h = (h, inr ty)
        ∧ match opd with
          | Number _ _ => ty ∈ [Tint; Tfloat]
          | Array _ => (ty ∉ [Tint; Tfloat]) ∧ ty ∈ [TTensor; TPaillierTensor]
          end.
Proof.
  intros [x|x|l t Hl|l arr t Hl Harr]; eexists;
    (split; [first [reflexivity|by apply type_ref_run]|]); cbn;
    rewrite ?elem_of_cons, ?elem_of_nil; intuition congruence.
Qed.

Lemma denotes_number h b f x :
  denotes h b (Number f x) →
  as_npval b h = (h, inr (Scal (of_num x)))
  ∧ ∃ m, py_mul (PyInt num_neg_one) b h = (h, inr m)
         ∧ as_npval m h = (h, inr (Scal (of_num (num_mul num_neg_one x))))
         ∧ denotes h m (Number f (num_mul num_neg_one x)).
Proof.
  inversion 1; subst; (split; [done|]); eexists; split_and!; try done; constructor.
Qed.

(** Each of [add], [sub], [mul], on an encrypted array and a supported
    operand, raises what the arithmetic on values raises or returns a new
    wrapper over the array that arithmetic gives. *)
Lemma method_run op a A b opd h :
  is_wrapper h a A → denotes h b opd →
  returns_wrapper h (method op a b h) (compute op A opd).
Proof.
  intros (l & arr & -> & Hl & Harr) Hden.
  destruct (denotes_type _ _ _ Hden) as (ty & Hty & Hkind).
  destruct opd as [f x|t].
  - destruct (denotes_number _ _ _ _ Hden) as (Hb & m & Hm & Hmv & _).
    destruct op; cbn [method compute operand_np minus]; unfold add, sub, mul;
      rewrite bind_run, Hty, bool_decide_eq_true_2, bind_run, (attr_run _ _ _ Hl) by done.
    + by apply wrap_returns_here.
    + rewrite bind_run, Hm. by apply wrap_returns_here.
    + by apply wrap_returns_here.
  - destruct Hkind as [Hno Hyes].
    destruct (denotes_numpy _ _ _ Hden) as (pre & lo & Hnp & Hlo).
    pose proof (as_npval_ref_run _ _ _ Hlo) as Ho.
    destruct op; cbn [method compute operand_np minus]; unfold add, sub, mul;
      rewrite bind_run, Hty, bool_decide_eq_false_2, bool_decide_eq_true_2,
        bind_run, (attr_run _ _ _ Hl), bind_run, Hnp by done.
    + by apply wrap_returns.
    + rewrite bind_run. unfold py_mul.
      rewrite (np_operator_run elem_mul _ _ (Scal (of_num num_neg_one)) (Arr t)) by done.
      destruct (binop elem_mul _ (Arr t)) as [e|[r|e]].
      * by exists pre.
      * rewrite <- app_assoc. apply wrap_returns; [done|].
        rewrite app_assoc. apply as_npval_ref_run, lookup_new.
      * by apply wrap_returns.
    + by apply wrap_returns.
Qed.
Lemma observe_returns h out expected :
  returns_wrapper h out expected →
  observe out = match expected with
                | inr res => inr (Some res)
                | inl e => inl e
                end.
Proof.
  destruct out as [h' r]. intros (ext & Hh & Hr). cbn in Hh, Hr. subst h'.
  destruct expected as [e|res].
  - by subst r.
  - destruct Hr as (l & -> & _ & l' & arr & [= <-] & Hl & Harr).
    cbn. by rewrite Hl, Harr.
Qed.

(** numpy's operator sees an operand only as an array. *)
Lemma binop_as_array f x y y' :
  as_array y = as_array y' → binop f x y = binop f x y'.
Proof. intros Hy. unfold binop. by rewrite Hy. Qed.

(** The operand scaled by -1 denotes what [minus] computes. *)
Lemma negated_run h b opd :
  denotes h b opd →
  match minus opd with
  | inl e => ∃ ext, negated b h = (h ++ ext, inl e)
  | inr m => ∃ ext b' opd', negated b h = (h ++ ext, inr b')
                            ∧ denotes (h ++ ext) b' opd'
                            ∧ as_array (operand_np opd') = as_array m
  end.
Proof.
  intros Hden. destruct Hden as [x|x|l t Hl|l arr t Hl Harr]; cbn [minus].
  - exists [], (PyInt (num_mul num_neg_one x)), (Number false (num_mul num_neg_one x)).
    rewrite app_nil_r. split_and!; [done|constructor|done].
  - exists [], (PyFloat (num_mul num_neg_one x)), (Number true (num_mul num_neg_one x)).
    rewrite app_nil_r. split_and!; [done|constructor|done].
  - unfold negated. rewrite bind_run, (type_ref_run _ _ _ Hl).
    rewrite bool_decide_eq_false_2, bool_decide_eq_true_2 by type_facts.
    rewrite bind_run, (numpy_tensor_run _ _ _ Hl), bind_run. unfold py_mul.
    rewrite (np_operator_run elem_mul _ _ (Scal (of_num num_neg_one)) (Arr t))
      by (done || apply as_npval_ref_run, lookup_new).
    destruct (binop elem_mul _ (Arr t)) as [e|[r|e]].
    + by eexists.
    + rewrite bind_run, (as_npval_ref_run _ _ r) by apply lookup_new.
      rewrite fmap_run. unfold alloc. cbn [as_array].
      exists ([ONdarray t] ++ [ONdarray r] ++ [OTensor r]). eexists _, (Array r).
      rewrite !app_assoc. split_and!; [done| |done].
      apply denotes_tensor, lookup_new.
    + rewrite bind_run. cbn [as_npval mret M_ret]. rewrite fmap_run. unfold alloc.
      exists ([ONdarray t] ++ [OTensor (as_array (Scal e))]).
      eexists _, (Array (as_array (Scal e))).
      rewrite !app_assoc. split_and!; [done| |done].
      apply denotes_tensor, lookup_new.
  - unfold negated. rewrite bind_run, (type_ref_run _ _ _ Hl).
    rewrite !bool_decide_eq_false_2, bool_decide_eq_true_2 by type_facts.
    rewrite bind_run, (numpy_wrapper_run _ _ _ Hl), bind_run. unfold py_mul.
    rewrite (np_operator_run elem_mul _ _ (Scal (of_num num_neg_one)) (Arr t))
      by (done || by apply as_npval_ref_run).
    destruct (binop elem_mul _ (Arr t)) as [e|[r|e]].
    + exists []. by rewrite app_nil_r.
    + rewrite bind_run, (as_npval_ref_run _ _ r) by apply lookup_new.
      rewrite bind_run. unfold alloc at 1. rewrite fmap_run. unfold alloc. cbn [as_array].
      exists ([ONdarray r] ++ [ONdarray r] ++ [OPaillierTensor (length (h ++ [ONdarray r]))]).
      eexists _, (Array r). rewrite !app_assoc. split_and!; [done| |done].
      eapply denotes_wrapper; [apply lookup_new|].
      apply lookup_app_l_Some, lookup_new.
    + rewrite bind_run. cbn [as_npval mret M_ret]. rewrite bind_run. unfold alloc at 1.
      rewrite fmap_run. unfold alloc.
      exists ([ONdarray (as_array (Scal e))] ++ [OPaillierTensor (length h)]).
      eexists _, (Array (as_array (Scal e))).
      rewrite !app_assoc. split_and!; [done| |done].
      eapply denotes_wrapper; [apply lookup_new|].
      apply lookup_app_l_Some, lookup_new.
Qed.

(** C8.  For an encrypted array [a] and a supported operand [b] (a plaintext
    scalar, a plaintext array, another encrypted array), [sub(a, b)] and
    [add(a, b')], where [b'] is [b] scaled by -1, come out the same: the same
    error, or wrappers over the same array of ciphertexts. *)
Theorem sub_is_add_of_negated a A b opd h :
  is_wrapper h a A → denotes h b opd →
  observe (sub a b h) = observe ((b' ← negated b; add a b') h).
Proof.
  intros Ha Hb.
  pose proof (observe_returns h _ _ (method_run Sub a A b opd h Ha Hb)) as Hsub.
  cbn [method compute] in Hsub. rewrite Hsub, bind_run. clear Hsub.
  pose proof (negated_run h b opd Hb) as Hneg.
  destruct (minus opd) as [e|m].
  - by destruct Hneg as (ext & ->).
  - destruct Hneg as (ext & b' & opd' & -> & Hb' & Hm).
    pose proof (observe_returns (h ++ ext) _ _
      (method_run Add a A b' opd' (h ++ ext) (is_wrapper_app _ _ _ _ Ha) Hb')) as Hadd.
    cbn [method compute] in Hadd. rewrite Hadd.
    by rewrite (binop_as_array _ _ _ _ Hm).
Qed.
(** *** The store only grows *)

Lemma preserves_ret {A} (x : A) : preserves (mret x).
Proof. intros h. exists []. by rewrite app_nil_r. Qed.

Lemma preserves_raise {A} e : preserves (raise (A:=A) e).
Proof. intros h. exists []. by rewrite app_nil_r. Qed.

Lemma preserves_read l : preserves (read l).
Proof.
  intros h. exists []. rewrite app_nil_r. unfold read. by destruct (h !! l).
Qed.

Lemma preserves_alloc (o : obj) : preserves (alloc o).
Proof. intros h. by exists [o]. Qed.

Lemma preserves_bind {A B} (m : Store.M obj A) (f : A → Store.M obj B) :
  preserves m → (∀ x, preserves (f x)) → preserves (m ≫= f).
Proof.
  intros Hm Hf h. rewrite bind_run. destruct (Hm h) as [e1 H1].
  destruct (m h) as [h1 [e|x]]; cbn in H1; subst h1; [by exists e1|].
  destruct (Hf x (h ++ e1)) as [e2 H2]. exists (e1 ++ e2). by rewrite app_assoc.
Qed.

Lemma preserves_fmap {A B} (g : A → B) (m : Store.M obj A) :
  preserves m → preserves (g <$> m).
Proof. intros Hm. apply preserves_bind; [done|]. intros x. apply preserves_ret. Qed.

(** Computations built from reads, allocations, raises and case analyses. *)
Ltac preserves_step :=
  first
    [ apply preserves_ret | apply preserves_raise | apply preserves_read
    | apply preserves_alloc | assumption
    | match goal with H : ∀ _, preserves _ |- _ => apply H end
    | match goal with
      | |- preserves (_ <$> _) => apply preserves_fmap
      | |- preserves (_ ≫= _) => apply preserves_bind; [|intros ?]
      | |- preserves (match ?x with _ => _ end) => destruct x
      | |- preserves (let (_, _) := ?x in _) => destruct x
      end ].

Lemma type_preserves v : preserves (type v).
Proof. unfold type. destruct v; repeat preserves_step. Qed.

Lemma as_npval_preserves v : preserves (as_npval v).
Proof. unfold as_npval. destruct v; repeat preserves_step. Qed.

Lemma np_operator_preserves f x y : preserves (np_operator f x y).
Proof.
  unfold np_operator. pose proof as_npval_preserves. repeat preserves_step.
Qed.

Lemma py_mul_preserves x y : preserves (py_mul x y).
Proof.
  pose proof np_operator_preserves. unfold py_mul.
  destruct x; try done; destruct y; try done; apply preserves_ret.
Qed.

Lemma attr_preserves v : preserves (_paillier_np_array_of v).
Proof. unfold _paillier_np_array_of. destruct v; repeat preserves_step. Qed.

Lemma init_preserves v : preserves (__init__ v).
Proof.
  unfold __init__. pose proof (type_preserves v).
  destruct v; repeat preserves_step.
Qed.

Lemma numpy_method_preserves v : preserves (numpy_method v).
Proof.
  unfold numpy_method, numpy. pose proof (attr_preserves v).
  destruct v; repeat preserves_step.
Qed.

Lemma method_preserves op x y : preserves (method op x y).
Proof.
  pose proof (type_preserves y). pose proof (attr_preserves x).
  pose proof (numpy_method_preserves y).
  destruct op; cbn [method]; unfold add, sub, mul, py_add;
    (apply preserves_bind; [done|]; intros ty);
    repeat first
      [ apply init_preserves | apply np_operator_preserves | apply py_mul_preserves
      | preserves_step ].
Qed.

Lemma torch_function_preserves func types args :
  preserves (__torch_function__ func types args).
Proof.
  unfold __torch_function__.
  destruct (HANDLED_FUNCTIONS func) as [impl|] eqn:Himpl; [|apply preserves_ret].
  assert (∃ op, impl = method op) as [op ->].
  { revert Himpl. unfold HANDLED_FUNCTIONS, implements.
    repeat case_decide; intros [= <-];
      [by exists Mul|by exists Sub|by exists Add]. }
  destruct (forallb issubclass types); [|apply preserves_ret].
  destruct args as [|a [|b [|c args]]];
    first [apply method_preserves|apply preserves_raise].
Qed.

Lemma parses_preserves v : preserves (parses v).
Proof. unfold parses. destruct v; repeat preserves_step. Qed.

Lemma torch_call_preserves func args : preserves (torch_call func args).
Proof.
  unfold torch_call. apply preserves_bind.
  { induction args as [|v args IH]; cbn [mapM]; [apply preserves_ret|].
    pose proof (parses_preserves v). repeat preserves_step. }
  intros ok. destruct (forallb id ok); [|apply preserves_raise].
  apply preserves_bind.
  - induction args as [|v args IH]; cbn [mapM]; [apply preserves_ret|].
    pose proof (type_preserves v). repeat preserves_step.
  - intros tys. apply preserves_bind; [apply torch_function_preserves|].
    intros r. destruct r; repeat preserves_step.
Qed.

Lemma decypt_preserves self sk : preserves (decypt self sk).
Proof.
  unfold decypt. pose proof (attr_preserves self).
  apply preserves_bind; [done|]. intros arr.
  apply preserves_bind; [apply as_npval_preserves|]. intros v.
  destruct (decide _) as [?|_]; [apply preserves_raise|].
  generalize (@nil elem). induction (data (as_array v)) as [|e es IH]; intros acc.
  - repeat preserves_step.
  - destruct (decrypt2float sk e); [apply preserves_raise|apply IH].
Qed.

Lemma run_preserves c : preserves (run c).
Proof.
  destruct c as [v|self|self sk|self [sk|]|self|func types args|op a b|op a b];
    cbn [run]; apply preserves_fmap.
  - apply init_preserves.
  - apply preserves_ret.
  - apply decypt_preserves.
  - apply decypt_preserves.
  - unfold tensor. pose proof (attr_preserves self). pose proof as_npval_preserves.
    repeat preserves_step.
  - apply attr_preserves.
  - apply torch_function_preserves.
  - apply method_preserves.
  - destruct op; apply torch_call_preserves.
Qed.
(** *** Shapes *)

Lemma broadcast_rev_refl s : broadcast_rev s s = Some s.
Proof.
  induction s as [|d s IH]; [done|]. cbn. rewrite IH. cbn. by rewrite decide_True.
Qed.

Lemma broadcast_shapes_refl s : broadcast_shapes s s = Some s.
Proof.
  unfold broadcast_shapes. rewrite broadcast_rev_refl.
  change (Some (reverse (reverse s)) = Some s). by rewrite reverse_involutive.
Qed.

Lemma broadcast_shapes_nil_l s : broadcast_shapes [] s = Some s.
Proof.
  unfold broadcast_shapes. change (Some (reverse (reverse s)) = Some s).
  by rewrite reverse_involutive.
Qed.

Lemma broadcast_shapes_nil_r s : broadcast_shapes s [] = Some s.
Proof.
  unfold broadcast_shapes.
  assert (Hrev : broadcast_rev (reverse s) (reverse []) = Some (reverse s))
    by by destruct (reverse s).
  rewrite Hrev. change (Some (reverse (reverse s)) = Some s).
  by rewrite reverse_involutive.
Qed.

Lemma binop_shape f x y v :
  binop f x y = inr v →
  broadcast_shapes (shape (as_array x)) (shape (as_array y)) = Some (shape (as_array v)).
Proof.
  unfold binop. destruct (broadcast_shapes _ _) as [s|]; [|done].
  destruct (mapM _ _) as [d|]; [|done].
  destruct s as [|n s]; [destruct d as [|e [|e' d]]|]; by intros [= <-].
Qed.

Lemma compute_shape op a b res :
  compute op a b = inr res →
  broadcast_shapes (shape a) (operand_shape b) = Some (shape res).
Proof.
  assert (Hwrap : ∀ f y, wrap (binop f (Arr a) y) = inr res →
            broadcast_shapes (shape a) (shape (as_array y)) = Some (shape res)).
  { intros f y. destruct (binop f (Arr a) y) as [e|[r|e]] eqn:Hop; [done| |done].
    intros [= ->]. by apply binop_shape in Hop. }
  destruct op; cbn [compute]; [by apply Hwrap| |by apply Hwrap].
  destruct (minus b) as [e|m] eqn:Hm; [done|]. intros Hres. apply Hwrap in Hres.
  replace (operand_shape b) with (shape (as_array m)); [done|].
  destruct b as [fl x|t]; cbn [minus] in Hm.
  - by injection Hm as <-.
  - apply binop_shape in Hm. cbn [as_array shape] in Hm.
    rewrite broadcast_shapes_nil_l in Hm. injection Hm as Hm. symmetry. exact Hm.
Qed.

Lemma denotes_app h ext b opd : denotes h b opd → denotes (h ++ ext) b opd.
Proof.
  intros [x|x|l t Hl|l arr t Hl Harr];
    econstructor; by apply lookup_app_l_Some.
Qed.

(** *** The operators *)

Lemma only_wrappers_pass (tys : list pytype) :
  forallb issubclass (filter (λ ty, ty = TPaillierTensor) tys) = true.
Proof.
  induction tys as [|ty tys IH]; [done|].
  rewrite filter_cons. case_decide as Hty; [|done]. cbn. by rewrite Hty.
Qed.

(** The parser of torch takes every supported operand. *)
Lemma denotes_parses h b opd : denotes h b opd → parses b h = (h, inr true).
Proof.
  intros [x|x|l t Hl|l arr t Hl Harr]; [done..| |];
    unfold parses; by rewrite bind_run, (read_run _ _ _ Hl).
Qed.

Lemma parses_wrapper_run h l arr b ok :
  h !! l = Some (OPaillierTensor arr) → parses b h = (h, inr ok) →
  mapM parses [PyRef l; b] h = (h, inr [true; ok]).
Proof.
  intros Hl Hb.
  assert (Hw : parses (PyRef l) h = (h, inr true)).
  { unfold parses. by rewrite bind_run, (read_run _ _ _ Hl). }
  cbn [mapM]. by rewrite bind_run, Hw, bind_run, bind_run, Hb.
Qed.

(** On an encrypted array and a supported operand, [a + b], [a - b], [a * b]
    are [add], [sub], [mul]. *)
Lemma operator_run op a A b opd h :
  is_wrapper h a A → denotes h b opd →
  operator op a b h = method op a b h.
Proof.
  intros Ha Hb. pose proof (method_run op a A b opd h Ha Hb) as (ext & Hh & Hr).
  destruct Ha as (l & arr & -> & Hl & Harr).
  destruct (denotes_type _ _ _ Hb) as (ty & Hty & _).
  assert (Hcall : ∀ f, HANDLED_FUNCTIONS f = Some (method op) →
            torch_call f [PyRef l; b] h = method op (PyRef l) b h).
  { intros f Hf. unfold torch_call.
    assert (Htys : mapM type [PyRef l; b] h = (h, inr [TPaillierTensor; ty])).
    { cbn [mapM]. rewrite bind_run, (type_ref_run _ _ _ Hl), bind_run, bind_run, Hty.
      done. }
    rewrite bind_run, (parses_wrapper_run _ _ _ _ _ Hl (denotes_parses _ _ _ Hb)).
    cbn [forallb id andb].
    rewrite bind_run, Htys. unfold __torch_function__.
    rewrite Hf, only_wrappers_pass, bind_run.
    destruct (method op (PyRef l) b h) as [h' [e|r]]; [done|].
    destruct (compute op A opd); cbn in Hr; [done|].
    by destruct Hr as (l' & [= ->] & _). }
  destruct op; by apply Hcall.
Qed.

(** C9, as the code has it.  [add], [sub], [mul] and the operators [+], [-],
    [*], called on an encrypted array and a plaintext scalar, a plaintext
    array or another encrypted array, and returning, return an instance that
    did not exist before; its shape is the broadcast of the shapes of the two
    operands, which is the first operand's shape when the second is a scalar
    or has that very shape; both operands are afterwards what they were.  No
    call into the class writes an object of the store: all it does to the
    store is allocate. *)
Theorem arithmetic_returns_new_wrapper op (by_operator : bool) a A b opd h h' r :
  is_wrapper h a A → denotes h b opd →
  (if by_operator then operator op a b h else method op a b h) = (h', inr r) →
  (∃ l res, r = PyRef l ∧ length h ≤ l ∧ is_wrapper h' r res
     ∧ broadcast_shapes (shape A) (operand_shape opd) = Some (shape res)
     ∧ (operand_shape opd = [] ∨ operand_shape opd = shape A → shape res = shape A))
  ∧ (∃ ext, h' = h ++ ext)
  ∧ is_wrapper h' a A ∧ denotes h' b opd
  ∧ ∀ c, preserves (run c).
Proof.
  intros Ha Hb Hrun.
  assert (Hm : method op a b h = (h', inr r)).
  { destruct by_operator; [|done]. by rewrite <- (operator_run op a A b opd h). }
  clear Hrun. destruct (method_run op a A b opd h Ha Hb) as (ext & Hh & Hr).
  rewrite Hm in Hh, Hr. cbn in Hh, Hr. subst h'.
  destruct (compute op A opd) as [e|res] eqn:Hc; [done|].
  destruct Hr as (l & [= ->] & Hnew & Hw).
  pose proof (compute_shape _ _ _ _ Hc) as Hshape.
  split_and!.
  - exists l, res. split_and!; [done..|].
    intros [Hs| Hs]; rewrite Hs in Hshape.
    + rewrite broadcast_shapes_nil_r in Hshape. by injection Hshape.
    + rewrite broadcast_shapes_refl in Hshape. by injection Hshape.
  - by exists ext.
  - by apply is_wrapper_app.
  - by apply denotes_app.
  - apply run_preserves.
Qed.
End wrapper_facts.

(** ** The wrapper on an array of one element *)

Module OnArrays.
Import Np PaillierTensor Wrapped Concrete.
#[local] Existing Instance Z_scalars.

Lemma one_wrapped : is_wrapper store0 (PyRef 1) one.
Proof. by exists 1, 0. Qed.

Lemma three_denoted : denotes store0 (PyRef 2) (Array three).
Proof. by apply denotes_tensor. Qed.

Lemma sub_is_add_of_negated_witness :
  observe (sub (PyRef 1) (PyRef 2) store0)
  = observe ((b' ← negated (PyRef 2); add (PyRef 1) b') store0).
Proof.
  apply (@sub_is_add_of_negated Z_scalars (PyRef 1) one (PyRef 2) (Array three) store0).
  - exact one_wrapped.
  - exact three_denoted.
Defined.

Lemma arithmetic_returns_new_wrapper_witness :
  (∃ l res, PyRef 4 = PyRef l ∧ length store0 ≤ l
     ∧ is_wrapper (store0 ++ [ONdarray {| shape := [1]; data := [50%Z] |};
                              OPaillierTensor 3]) (PyRef 4) res
     ∧ broadcast_shapes (shape one) (operand_shape (Number false 5%Z)) = Some (shape res)
     ∧ (operand_shape (Number false 5%Z) = []
        ∨ operand_shape (Number false 5%Z) = shape one → shape res = shape one))
  ∧ (∃ ext, store0 ++ [ONdarray {| shape := [1]; data := [50%Z] |}; OPaillierTensor 3]
            = store0 ++ ext)
  ∧ is_wrapper (store0 ++ [ONdarray {| shape := [1]; data := [50%Z] |};
                           OPaillierTensor 3]) (PyRef 1) one
  ∧ denotes (store0 ++ [ONdarray {| shape := [1]; data := [50%Z] |};
                        OPaillierTensor 3]) (PyInt 5%Z) (Number false 5%Z)
  ∧ ∀ c, preserves (run c).
Proof.
  apply (@arithmetic_returns_new_wrapper Z_scalars Mul true (PyRef 1) one
           (@PyInt Z_scalars 5%Z) (@Number Z_scalars false 5%Z) store0).
  - exact one_wrapped.
  - constructor.
  - reflexivity.
Defined.

(** C9, as the claim states it, fails: the sum of an encrypted array of
    shape (1,) and a tensor of shape (3,) is an encrypted array of shape
    (3,), not of the shape of the first operand. *)
Lemma add_takes_the_broadcast_shape :
  is_wrapper store0 (PyRef 1) one
  ∧ denotes store0 (PyRef 2) (Array three)
  ∧ add (PyRef 1) (PyRef 2) store0
    = (store0 ++ [ONdarray three; ONdarray sum13; OPaillierTensor 4], inr (PyRef 5))
  ∧ is_wrapper (store0 ++ [ONdarray three; ONdarray sum13; OPaillierTensor 4])
      (PyRef 5) sum13
  ∧ shape sum13 ≠ shape one.
Proof.
  split_and!; [exact one_wrapped|exact three_denoted|by vm_compute|by exists 5, 4|done].
Qed.
End OnArrays.

(** * Further properties of the clients *)

Section client_rounds.
Context `{OptimizerRules}.
Implicit Types (h : heap tensor).

(** A loop whose body writes nothing writes nothing, whether it returns or
    raises. *)
Lemma mapM_frame {A B} (f : A → Store.M tensor B) (xs : list A) :
  (∀ x h, (f x h).1 = h) → ∀ h, (mapM f xs h).1 = h.
Proof.
  intros Hf. induction xs as [|x xs IH]; intros h; [done|].
  cbn [mapM]. rewrite bind_run. specialize (Hf x h).
  destruct (f x h) as [h1 [e|y]]; cbn in Hf; subst h1; [done|].
  rewrite bind_run. specialize (IH h).
  by destruct (mapM f xs h) as [h1 [e|ys]]; cbn in IH; subst h1.
Qed.

Lemma gradient_frame (r : scalar) (pair : loc * loc) h :
  ((let '(param, prev_param) := pair in
    p ← read param; q ← read prev_param; mret (tdiv (tsub q p) r)) h).1 = h.
Proof.
  destruct pair as [l l']. rewrite bind_run. unfold read at 1.
  destruct (h !! l) as [p|]; [|done]. cbn.
  rewrite bind_run. unfold read at 1. by destruct (h !! l') as [q|].
Qed.

(** X1.  No upload writes a tensor: [FedAvgClient.upload], in either mode,
    and [MPIFedAVGClient.upload] leave the store of parameters and snapshots
    as it was, whether they return or raise.  What an
    [MPIFedAVGClient.upload] that returns has changed is the client, in two
    places: [gradients] holds the new list, and the communicator has sent
    that list, once, to the destination 0 under the gradients tag; the model,
    the learning rate, the device and the snapshot are the ones it had. *)
Theorem upload_reads_only (self : FedAvgClient.t) (mpi : MPIFedAVGClient.t) h :
  (FedAvgClient.upload self h).1 = h
  ∧ (MPIFedAVGClient.upload mpi h).1 = h
  ∧ ∀ k mpi', MPIFedAVGClient.upload mpi h = (k, inr mpi') →
      ∃ gs, MPIFedAVGClient.gradients mpi' = Some gs
            ∧ MPIFedAVGClient.comm mpi'
              = Comm.send (MPIFedAVGClient.comm mpi) gs 0 GRADIENTS_TAG
            ∧ Comm.inbox (MPIFedAVGClient.comm mpi') = Comm.inbox (MPIFedAVGClient.comm mpi)
            ∧ MPIFedAVGClient.model mpi' = MPIFedAVGClient.model mpi
            ∧ MPIFedAVGClient.user_id mpi' = MPIFedAVGClient.user_id mpi
            ∧ MPIFedAVGClient.lr mpi' = MPIFedAVGClient.lr mpi
            ∧ MPIFedAVGClient.device mpi' = MPIFedAVGClient.device mpi
            ∧ MPIFedAVGClient.prev_parameters mpi' = MPIFedAVGClient.prev_parameters mpi.
Proof.
  split_and!.
  - unfold FedAvgClient.upload. destruct (FedAvgClient.send_gradient self).
    + rewrite fmap_run.
      assert (Hframe : (FedAvgClient.upload_gradients self h).1 = h)
        by (apply mapM_frame; intros; apply gradient_frame).
      by destruct (FedAvgClient.upload_gradients self h) as [h1 [e|gs]];
        cbn in Hframe; subst h1.
    + by rewrite fmap_run.
  - unfold MPIFedAVGClient.upload, MPIFedAVGClient.upload_gradient. rewrite bind_run.
    match goal with
    | |- context [mapM ?f ?l h] =>
        pose proof (mapM_frame f l (gradient_frame (MPIFedAVGClient.lr mpi)) h) as Hframe;
        destruct (mapM f l h) as [h1 [e|gs]]
    end; by cbn in Hframe; subst h1.
  - intros k mpi'. unfold MPIFedAVGClient.upload, MPIFedAVGClient.upload_gradient.
    rewrite bind_run.
    match goal with
    | |- context [mapM ?f ?l h] => destruct (mapM f l h) as [h1 [e|gs]]
    end; [done|].
    intros [= _ <-]. by exists gs.
Qed.

(** X2.  When the snapshot and the parameter sequence have different
    lengths, [upload_gradients] does not raise: it pairs them up to the
    shorter of the two and returns that many gradients. *)
Theorem upload_gradients_truncates (self : FedAvgClient.t) h ps qs :
  values h (Model.parameters (FedAvgClient.model self)) = Some ps →
  values h (FedAvgClient.prev_parameters self) = Some qs →
  ∃ gs, FedAvgClient.upload_gradients self h = (h, inr gs)
        ∧ length gs = length ps `min` length qs
        ∧ ∀ i p q, ps !! i = Some p → qs !! i = Some q →
            gs !! i = Some (tdiv (tsub q p) (FedAvgClient.lr self)).
Proof.
  intros Hps Hqs. eexists. unfold FedAvgClient.upload_gradients.
  rewrite (gradient_loop_run _ _ _ _ _ _ Hps Hqs). split_and!; [done| |].
  - rewrite length_zip_with. lia.
  - intros i p q Hp Hq. by rewrite lookup_zip_with, Hq, Hp.
Qed.

(** X3.  Right after a [download] that returns, the snapshot is the model:
    [upload_gradients] returns, for each parameter value [v], the gradient
    [(v - v) / lr]. *)
Theorem gradients_vanish_after_download (self : FedAvgClient.t) g h h' self' :
  model_wf (FedAvgClient.model self) h →
  FedAvgClient.download self g h = (h', inr self') →
  ∃ vs, values h' (Model.parameters (FedAvgClient.model self')) = Some vs
        ∧ FedAvgClient.upload_gradients self' h'
          = (h', inr ((λ v, tdiv (tsub v v) (FedAvgClient.lr self)) <$> vs)).
Proof.
  intros Hwf Hrun.
  destruct (download_returns _ _ _ _ _ Hwf Hrun)
    as (h1 & vs & -> & Hlen & Hvs & Hprev & Hm & _ & _ & Hlr & _).
  exists vs. rewrite Hm. split; [by apply values_app|].
  unfold FedAvgClient.upload_gradients.
  rewrite (gradient_loop_run _ _ _ _ vs vs), Hlr.
  - f_equal. f_equal. clear. induction vs as [|v vs IH]; [done|]. cbn. by rewrite IH.
  - rewrite Hm. by apply values_app.
  - rewrite Hprev, <- Hlen, <- (values_length _ _ _ Hvs). apply values_seq_app.
Qed.

(** X4.  A whole round.  After a [download] that returns, let the trainer
    assign parameters of the model in place, in any number and order.  The
    snapshot still holds the values the parameters had when the download
    returned, and [upload_gradients] returns, position by position, that
    value minus the trained one, over the learning rate. *)
Theorem gradients_after_training (self : FedAvgClient.t) g h h' self'
    (ws : list (loc * tensor)) :
  model_wf (FedAvgClient.model self) h →
  FedAvgClient.download self g h = (h', inr self') →
  Forall (λ l, l ∈ Model.parameters (FedAvgClient.model self)) ws.*1 →
  ∃ h2 vs cur,
    write_all ws h' = (h2, inr ())
    ∧ values h' (Model.parameters (FedAvgClient.model self)) = Some vs
    ∧ values h2 (FedAvgClient.prev_parameters self') = Some vs
    ∧ values h2 (Model.parameters (FedAvgClient.model self)) = Some cur
    ∧ FedAvgClient.upload_gradients self' h2
      = (h2, inr (zip_with (λ q p, tdiv (tsub q p) (FedAvgClient.lr self)) vs cur)).
Proof.
  intros Hwf Hrun Hws.
  destruct (download_returns _ _ _ _ _ Hwf Hrun)
    as (h1 & vs & -> & Hlen & Hvs & Hprev & Hm & _ & _ & Hlr & _).
  pose proof Hwf as (_ & _ & Hin).
  assert (Hlt : Forall (λ l, l < length h) ws.*1).
  { eapply Forall_impl; [exact Hws|]. intros l Hl. cbn in Hl.
    by apply (proj1 (Forall_forall _ _) Hin). }
  destruct (write_all_run ws (h1 ++ vs)) as (h2 & Hw & Hlen2 & Hout & _).
  { eapply Forall_impl; [exact Hlt|]. intros l Hl. cbn in *.
    rewrite length_app. lia. }
  assert (Hsnap : values h2 (FedAvgClient.prev_parameters self') = Some vs).
  { rewrite (values_frame (h1 ++ vs) h2).
    - rewrite Hprev, <- Hlen, <- (values_length _ _ _ Hvs). apply values_seq_app.
    - intros l Hl. apply Hout. intros Hmem. rewrite Hprev in Hl.
      apply elem_of_seq in Hl as [Hl _].
      apply (proj1 (Forall_forall _ _) Hlt) in Hmem. lia. }
  destruct (values_is_Some h2 (Model.parameters (FedAvgClient.model self))) as [cur Hcur].
  { eapply Forall_impl; [exact Hin|]. intros l Hl. cbn in *.
    rewrite Hlen2, length_app. lia. }
  exists h2, vs, cur. split_and!; [done|by apply values_app|done..|].
  unfold FedAvgClient.upload_gradients. rewrite Hm, Hlr.
  by apply gradient_loop_run.
Qed.

(** The revert of the specification writes each parameter its own value
    when the parameters hold their snapshot values. *)
Lemma specified_revert_loop_run (ls : list loc) : ∀ (ls' : list loc) h vs,
  values h ls = Some vs → values h ls' = Some vs →
  Specified.revert_loop (zip ls ls') h = (h, inr ()).
Proof.
  induction ls as [|l ls IH]; intros ls' h vs Hvs Hvs'; [done|].
  apply values_Forall2, Forall2_cons_inv_l in Hvs as (v & vs1 & Hl & Hvs & ->).
  apply values_Forall2 in Hvs.
  apply values_Forall2, Forall2_cons_inv_r in Hvs' as (l' & ls1 & Hl' & Hvs' & ->).
  apply values_Forall2 in Hvs'.
  cbn [zip zip_with Specified.revert_loop].
  rewrite bind_run, (read_run _ _ _ Hl'), bind_run, write_run
    by by eapply lookup_lt_Some.
  rewrite list_insert_id by done. by apply (IH ls1 h vs1).
Qed.

(** X5.  The revert-then-step of the specification and the code agree
    whenever the parameters hold their snapshot values, that is when no
    local training happened since the snapshot was taken: there the revert
    of the specification changes nothing either. *)
Theorem download_as_specified_when_untrained (self : FedAvgClient.t) g h vs :
  values h (Model.parameters (FedAvgClient.model self)) = Some vs →
  values h (FedAvgClient.prev_parameters self) = Some vs →
  FedAvgClient.download self g h = Specified.download self g h.
Proof.
  intros Hvs Hvs'. unfold FedAvgClient.download, Specified.download.
  rewrite !bind_run.
  destruct (FedAvgClient.server_side_update self || negb (FedAvgClient.initialized self));
    [done|].
  rewrite !bind_run, revert_run. unfold Specified.revert.
  by rewrite (specified_revert_loop_run _ _ _ _ Hvs Hvs').
Qed.
End client_rounds.

Section constructors.
Context `{OptimizerRules}.
Implicit Types (h : heap tensor).

(** X6.  Whenever the constructor of [FedAvgClient] returns on a model of
    the store, the store is the old one followed by one copy per parameter;
    the snapshot is made of these copies, none of which is a parameter; the
    client starts Uninitialized, and its first gradients are [(v - v) / lr]. *)
Theorem init_takes_a_separate_snapshot m uid (r : scalar) sg ty ssu (kw : kwargs) dev
    h h' c :
  model_wf m h →
  FedAvgClient.__init__ m uid r sg ty ssu kw dev h = (h', inr c) →
  ∃ vs, h' = h ++ vs
        ∧ values h (Model.parameters m) = Some vs
        ∧ FedAvgClient.prev_parameters c = seq (length h) (length (Model.parameters m))
        ∧ values h' (FedAvgClient.prev_parameters c) = Some vs
        ∧ (∀ l, l ∈ FedAvgClient.prev_parameters c → l ∉ Model.parameters m)
        ∧ FedAvgClient.initialized c = false
        ∧ FedAvgClient.upload_gradients c h'
          = (h', inr ((λ v, tdiv (tsub v v) r) <$> vs)).
Proof.
  intros Hwf. pose proof Hwf as (_ & _ & Hin).
  destruct (values_is_Some h (Model.parameters m) Hin) as [vs Hvs].
  unfold FedAvgClient.__init__. rewrite bind_run.
  set (setup := if negb ssu then _ else _).
  assert (Hsetup : (setup h).1 = h).
  { subst setup. destruct ssu; [done|]. cbn [negb].
    by destruct (setup_cases m r ty kw h) as (out & -> & _). }
  destruct (setup h) as [h1 [e|opt]]; cbn in Hsetup; subst h1; [done|].
  rewrite bind_run, (snapshot_run _ _ _ Hvs). intros [= <- <-]. cbn.
  assert (Hsnap : values (h ++ vs) (seq (length h) (length (Model.parameters m))) = Some vs).
  { rewrite <- (values_length _ _ _ Hvs). apply values_seq_app. }
  exists vs. split_and!; [done..| |done|].
  - intros l Hl Hmem. apply elem_of_seq in Hl as [Hl _].
    apply (proj1 (Forall_forall _ _) Hin) in Hmem. lia.
  - unfold FedAvgClient.upload_gradients.
    cbn [FedAvgClient.model FedAvgClient.prev_parameters FedAvgClient.lr].
    rewrite (gradient_loop_run _ _ _ _ vs vs (values_app _ _ _ _ Hvs) Hsnap).
    f_equal. f_equal. clear. induction vs as [|v vs IH]; [done|]. cbn. by rewrite IH.
Qed.

(** X7.  The constructor of [MPIFedAVGClient] always returns on a model of
    the store: the snapshot consists of new objects, one copy per parameter
    and none of them a parameter, the communicator is kept, and no gradient
    is held yet. *)
Theorem mpi_init_takes_a_separate_snapshot (comm : Comm.t) m uid (r : scalar) dev h :
  model_wf m h →
  ∃ vs self,
    MPIFedAVGClient.__init__ comm m uid r dev h = (h ++ vs, inr self)
    ∧ values h (Model.parameters m) = Some vs
    ∧ MPIFedAVGClient.prev_parameters self = seq (length h) (length (Model.parameters m))
    ∧ values (h ++ vs) (MPIFedAVGClient.prev_parameters self) = Some vs
    ∧ (∀ l, l ∈ MPIFedAVGClient.prev_parameters self → l ∉ Model.parameters m)
    ∧ MPIFedAVGClient.comm self = comm
    ∧ MPIFedAVGClient.gradients self = None.
Proof.
  intros (_ & _ & Hin).
  destruct (values_is_Some h (Model.parameters m) Hin) as [vs Hvs].
  eexists vs, _. unfold MPIFedAVGClient.__init__.
  rewrite bind_run, (snapshot_run _ _ _ Hvs). cbn.
  split_and!; [done..| | |done|done].
  - rewrite <- (values_length _ _ _ Hvs). apply values_seq_app.
  - intros l Hl Hmem. apply elem_of_seq in Hl as [Hl _].
    apply (proj1 (Forall_forall _ _) Hin) in Hmem. lia.
Qed.
End constructors.

Section mpi_rounds.
Context `{Tensors}.
Implicit Types (h : heap tensor).

(** The loop of [MPIFedAVGClient.download] on distinct parameters, when every
    received entry can be given the shape of its parameter: the parameters
    paired with an entry are overwritten, nothing else is. *)
Lemma download_loop_run dev (ls : list loc) : ∀ (new : list tensor) h olds,
  NoDup ls → values h ls = Some olds →
  (∀ i p v, olds !! i = Some p → new !! i = Some v → is_Some (reshape_to v p dev)) →
  ∃ h', MPIFedAVGClient.download_loop dev (zip ls new) h = (h', inr ())
        ∧ length h' = length h
        ∧ (∀ l, l ∉ take (length new) ls → h' !! l = h !! l)
        ∧ (∀ i l p v, ls !! i = Some l → olds !! i = Some p → new !! i = Some v →
             h' !! l = reshape_to v p dev).
Proof.
  induction ls as [|l ls IH]; intros new h olds Hnd Hvs Hok.
  - exists h. split_and!; done.
  - apply values_Forall2, Forall2_cons_inv_l in Hvs as (p & olds' & Hl & Hvs & ->).
    apply values_Forall2 in Hvs. apply NoDup_cons in Hnd as [Hfresh Hnd].
    destruct new as [|v new].
    { exists h. split_and!; done. }
    destruct (Hok 0 p v eq_refl eq_refl) as [w Hw].
    cbn [zip zip_with MPIFedAVGClient.download_loop].
    rewrite bind_run, (read_run _ _ _ Hl), Hw, bind_run, write_run
      by by eapply lookup_lt_Some.
    destruct (IH new (<[l:=w]> h) olds') as (h' & Hrun & Hlen & Hout & Hin); [done| |..].
    + rewrite (values_frame h); [done|]. intros l' Hl'.
      apply list_lookup_insert_ne. by intros ->.
    + intros i p' v' Hp' Hv'. by apply (Hok (S i)).
    + exists h'. rewrite length_insert in Hlen. split_and!; [done..| |].
      * intros l' Hl'. cbn in Hl'. apply not_elem_of_cons in Hl' as [Hne Hl'].
        rewrite Hout by done. by apply list_lookup_insert_ne.
      * intros [|i] l' p' v' Hl' Hp' Hv'; cbn in Hl', Hp', Hv'.
        -- injection Hl' as <-. injection Hp' as <-. injection Hv' as <-.
           rewrite Hout, Hw.
           ++ apply list_lookup_insert_eq. by eapply lookup_lt_Some.
           ++ intros Hmem. apply Hfresh. by apply (subseteq_take (length new) ls).
        -- by apply (Hin i).
Qed.

(** X8.  [MPIFedAVGClient.download] does not compare lengths.  With every
    received entry fit for the shape of its parameter, it returns: the i-th
    parameter holds the i-th received entry, reshaped and moved to the
    device, for as many parameters as entries were received; the parameters
    beyond, and every other object, are left as they were, and entries beyond
    the last parameter are ignored. *)
Theorem mpi_download_overwrites (self : MPIFedAVGClient.t) h new comm' olds :
  Comm.recv (MPIFedAVGClient.comm self) PARAMETERS_TAG = Some (new, comm') →
  NoDup (Model.parameters (MPIFedAVGClient.model self)) →
  values h (Model.parameters (MPIFedAVGClient.model self)) = Some olds →
  (∀ i p v, olds !! i = Some p → new !! i = Some v →
     is_Some (reshape_to v p (MPIFedAVGClient.device self))) →
  ∃ h' self',
    MPIFedAVGClient.download self h = (h', inr self')
    ∧ length h' = length h
    ∧ MPIFedAVGClient.comm self' = comm'
    ∧ (∀ i l p v, Model.parameters (MPIFedAVGClient.model self) !! i = Some l →
         olds !! i = Some p → new !! i = Some v →
         h' !! l = reshape_to v p (MPIFedAVGClient.device self))
    ∧ (∀ i l, Model.parameters (MPIFedAVGClient.model self) !! i = Some l →
         length new ≤ i → h' !! l = h !! l)
    ∧ (∀ l, l ∉ Model.parameters (MPIFedAVGClient.model self) → h' !! l = h !! l).
Proof.
  intros Hrecv Hnd Hvs Hok.
  destruct (download_loop_run _ _ new h olds Hnd Hvs Hok) as (h' & Hrun & Hlen & Hout & Hin).
  eexists h', _. unfold MPIFedAVGClient.download. rewrite Hrecv, bind_run, Hrun. cbn.
  split_and!; [done..| |].
  - intros i l Hl Hi. apply Hout. intros Hmem.
    apply list_elem_of_lookup in Hmem as [j Hj].
    apply lookup_take_Some in Hj as [Hj Hlt].
    pose proof (NoDup_lookup _ _ _ _ Hnd Hl Hj). lia.
  - intros l Hl. apply Hout. intros Hmem. apply Hl.
    by apply (subseteq_take (length new)).
Qed.

(** The loop stops at the first entry that does not fit its parameter. *)
Lemma download_loop_stops dev (k : nat) : ∀ (ls : list loc) (new : list tensor) h olds p v,
  NoDup ls → values h ls = Some olds →
  (∀ i p' v', i < k → olds !! i = Some p' → new !! i = Some v' →
     is_Some (reshape_to v' p' dev)) →
  olds !! k = Some p → new !! k = Some v → reshape_to v p dev = None →
  ∃ h', MPIFedAVGClient.download_loop dev (zip ls new) h
        = (h', inl (RuntimeError "shape is invalid for input"))
        ∧ length h' = length h
        ∧ (∀ l, l ∉ take k ls → h' !! l = h !! l)
        ∧ (∀ i l p' v', i < k → ls !! i = Some l → olds !! i = Some p' →
             new !! i = Some v' → h' !! l = reshape_to v' p' dev).
Proof.
  induction k as [|k IH]; intros ls new h olds p v Hnd Hvs Hok Hp Hv Hbad.
  - destruct olds as [|p0 olds]; [done|]. destruct new as [|v0 new]; [done|].
    injection Hp as ->. injection Hv as ->.
    apply values_Forall2, Forall2_cons_inv_r in Hvs as (l & ls' & Hl & _ & ->).
    exists h. cbn [zip zip_with MPIFedAVGClient.download_loop].
    rewrite bind_run, (read_run _ _ _ Hl), Hbad. split_and!; [done..|].
    intros i l' p' v' Hi. lia.
  - destruct olds as [|p0 olds]; [done|]. destruct new as [|v0 new]; [done|].
    cbn in Hp, Hv.
    apply values_Forall2, Forall2_cons_inv_r in Hvs as (l & ls' & Hl & Hvs & ->).
    apply values_Forall2 in Hvs. apply NoDup_cons in Hnd as [Hfresh Hnd].
    destruct (Hok 0 p0 v0) as [w Hw]; [lia|done..|].
    cbn [zip zip_with MPIFedAVGClient.download_loop].
    rewrite bind_run, (read_run _ _ _ Hl), Hw, bind_run, write_run
      by by eapply lookup_lt_Some.
    destruct (IH ls' new (<[l:=w]> h) olds p v) as (h' & Hrun & Hlen & Hout & Hin);
      [done| | |done..|].
    + rewrite (values_frame h); [done|]. intros l' Hl'.
      apply list_lookup_insert_ne. by intros ->.
    + intros i p' v' Hi Hp' Hv'. apply (Hok (S i)); [lia|done..].
    + exists h'. rewrite length_insert in Hlen. split_and!; [done..| |].
      * intros l' Hl'. cbn in Hl'. apply not_elem_of_cons in Hl' as [Hne Hl'].
        rewrite Hout by done. by apply list_lookup_insert_ne.
      * intros [|i] l' p' v' Hi Hl' Hp' Hv'; cbn in Hl', Hp', Hv'.
        -- injection Hl' as <-. injection Hp' as <-. injection Hv' as <-.
           rewrite Hout, Hw.
           ++ apply list_lookup_insert_eq. by eapply lookup_lt_Some.
           ++ intros Hmem. apply Hfresh. by apply (subseteq_take k ls').
        -- apply (Hin i); [lia|done..].
Qed.

(** X9.  [MPIFedAVGClient.download] is not atomic.  When the k-th received
    entry is the first that cannot take the shape of its parameter, the call
    raises, the parameters before the k-th have already been overwritten with
    their entries, and the k-th and all later parameters keep their values:
    the model is left a mixture of the new state and the old. *)
Theorem mpi_download_stops_midway (self : MPIFedAVGClient.t) h new comm' olds k p v :
  Comm.recv (MPIFedAVGClient.comm self) PARAMETERS_TAG = Some (new, comm') →
  NoDup (Model.parameters (MPIFedAVGClient.model self)) →
  values h (Model.parameters (MPIFedAVGClient.model self)) = Some olds →
  (∀ i p' v', i < k → olds !! i = Some p' → new !! i = Some v' →
     is_Some (reshape_to v' p' (MPIFedAVGClient.device self))) →
  olds !! k = Some p → new !! k = Some v →
  reshape_to v p (MPIFedAVGClient.device self) = None →
  ∃ h', MPIFedAVGClient.download self h
        = (h', inl (RuntimeError "shape is invalid for input"))
        ∧ (∀ i l p' v', i < k →
             Model.parameters (MPIFedAVGClient.model self) !! i = Some l →
             olds !! i = Some p' → new !! i = Some v' →
             h' !! l = reshape_to v' p' (MPIFedAVGClient.device self))
        ∧ (∀ i l, k ≤ i →
             Model.parameters (MPIFedAVGClient.model self) !! i = Some l →
             h' !! l = h !! l).
Proof.
  intros Hrecv Hnd Hvs Hok Hp Hv Hbad.
  destruct (download_loop_stops _ k _ new h olds p v Hnd Hvs Hok Hp Hv Hbad)
    as (h' & Hrun & Hlen & Hout & Hin).
  exists h'. unfold MPIFedAVGClient.download. rewrite Hrecv, bind_run, Hrun.
  split_and!; [done..|].
  intros i l Hi Hl. apply Hout. intros Hmem.
  apply list_elem_of_lookup in Hmem as [j Hj].
  apply lookup_take_Some in Hj as [Hj Hlt].
  pose proof (NoDup_lookup _ _ _ _ Hnd Hl Hj). lia.
Qed.

(** X10.  The snapshot of an [MPIFedAVGClient] goes stale.  After a
    [download] that installed the values [ws], the next [upload_gradient]
    sends, position by position, the value the snapshot held before that
    download minus the installed value, over the learning rate: the
    difference to the parameters of construction time, not to the state just
    received. *)
Theorem mpi_gradients_against_stale_snapshot (self : MPIFedAVGClient.t) dest
    h new comm' olds qs ws :
  Comm.recv (MPIFedAVGClient.comm self) PARAMETERS_TAG = Some (new, comm') →
  NoDup (Model.parameters (MPIFedAVGClient.model self)) →
  values h (Model.parameters (MPIFedAVGClient.model self)) = Some olds →
  values h (MPIFedAVGClient.prev_parameters self) = Some qs →
  (∀ l, l ∈ MPIFedAVGClient.prev_parameters self →
        l ∉ Model.parameters (MPIFedAVGClient.model self)) →
  Forall3 (λ v p w, reshape_to v p (MPIFedAVGClient.device self) = Some w) new olds ws →
  ∃ h' self' self'',
    MPIFedAVGClient.download self h = (h', inr self')
    ∧ values h' (Model.parameters (MPIFedAVGClient.model self)) = Some ws
    ∧ MPIFedAVGClient.upload_gradient self' dest h' = (h', inr self'')
    ∧ MPIFedAVGClient.gradients self''
      = Some (zip_with (λ q w, tdiv (tsub q w) (MPIFedAVGClient.lr self)) qs ws).
Proof.
  intros Hrecv Hnd Hvs Hqs Hsep H3.
  assert (Hlen3 : length new = length olds ∧ length olds = length ws).
  { clear -H3. induction H3; cbn; [done|]. lia. }
  assert (Hlook : ∀ i p v, olds !! i = Some p → new !! i = Some v →
            reshape_to v p (MPIFedAVGClient.device self) = ws !! i).
  { clear -H3. induction H3 as [|v p w new olds ws Hw _ IH]; intros [|i] p' v' Hp Hv;
      try done; cbn in *.
    - by injection Hp as <-; injection Hv as <-.
    - by apply IH. }
  destruct (download_loop_run (MPIFedAVGClient.device self) _ new h olds Hnd Hvs)
    as (h' & Hrun & Hlen & Hout & Hin).
  { intros i p v Hp Hv. rewrite (Hlook i p v Hp Hv). apply lookup_lt_is_Some.
    apply lookup_lt_Some in Hp. lia. }
  assert (Hws : values h' (Model.parameters (MPIFedAVGClient.model self)) = Some ws).
  { apply values_Forall2, Forall2_same_length_lookup. split.
    - apply values_length in Hvs. lia.
    - intros i l w Hl Hw.
      destruct (lookup_lt_is_Some_2 olds i) as [p Hp].
      { apply lookup_lt_Some in Hw. lia. }
      destruct (lookup_lt_is_Some_2 new i) as [v Hv].
      { apply lookup_lt_Some in Hw. lia. }
      by rewrite (Hin i l p v Hl Hp Hv), (Hlook i p v Hp Hv). }
  assert (Hqs' : values h' (MPIFedAVGClient.prev_parameters self) = Some qs).
  { rewrite (values_frame h); [done|]. intros l Hl. apply Hout. intros Hmem.
    apply (Hsep l Hl). by apply (subseteq_take (length new)). }
  eexists h', _, _. unfold MPIFedAVGClient.download.
  rewrite Hrecv, bind_run, Hrun. cbn. split_and!; [done..| |].
  - unfold MPIFedAVGClient.upload_gradient. cbn.
    by rewrite bind_run, (gradient_loop_run _ _ _ _ _ _ Hws Hqs').
  - done.
Qed.
End mpi_rounds.

(** * Further properties of the wrapper *)

Section elementwise.
Context `{Scalars}.
Import Np PaillierTensor Wrapped.
Implicit Types (h : heap obj) (d : list elem) (s : list nat).

Lemma size_cons n s : size (n :: s) = n * size s.
Proof. done. Qed.

Lemma size_ones n : size (replicate n 1) = 1.
Proof. induction n as [|n IH]; [done|]. cbn [replicate]. rewrite size_cons. lia. Qed.

Lemma chunks_concat k n : ∀ d,
  length d = n * k →
  concat (chunks k n d) = d ∧ Forall (λ c, length c = k) (chunks k n d).
Proof.
  induction n as [|n IH]; intros d Hd; cbn [chunks concat].
  - split; [|done]. symmetry. by apply nil_length_inv.
  - destruct (IH (drop k d)) as [Hcat Hall]; [rewrite length_drop; lia|].
    rewrite Hcat, take_drop. split; [done|]. constructor; [|done].
    rewrite length_take. lia.
Qed.

(** Seen at its own shape, an array is itself. *)
Lemma expand_same s : ∀ d, length d = size s → expand s s d = d.
Proof.
  induction s as [|n s IH]; intros d Hd; [done|].
  cbn [expand]. rewrite decide_True by done. rewrite size_cons in Hd.
  destruct (chunks_concat (size s) n d Hd) as [Hcat Hall].
  rewrite <- Hcat at 2. f_equal.
  rewrite <- (list_fmap_id (chunks (size s) n d)) at 2.
  apply Forall_fmap_ext_1. eapply Forall_impl; [exact Hall|]. intros c Hc. by apply IH.
Qed.

Lemma broadcast_to_same (a : ndarray) :
  length (data a) = size (shape a) → broadcast_to a (shape a) = data a.
Proof.
  intros Ha. unfold broadcast_to. rewrite Nat.sub_diag. by apply expand_same.
Qed.

Lemma concat_replicate_replicate {A} m n (x : A) :
  concat (replicate m (replicate n x)) = replicate (m * n) x.
Proof.
  induction m as [|m IH]; [done|]. cbn [replicate concat Nat.mul].
  by rewrite IH, replicate_add.
Qed.

(** Seen at any shape, a scalar is that many copies of itself. *)
Lemma expand_scalar (e : elem) s : expand (replicate (length s) 1) s [e] = replicate (size s) e.
Proof.
  induction s as [|m s IH]; [done|].
  cbn [length replicate expand]. rewrite size_cons. case_decide as Hm.
  - subst m. rewrite size_ones. cbn [chunks take fmap list_fmap concat].
    rewrite IH, app_nil_r. f_equal. lia.
  - by rewrite IH, concat_replicate_replicate.
Qed.

Lemma broadcast_to_scalar (e : elem) s :
  broadcast_to {| shape := []; data := [e] |} s = replicate (size s) e.
Proof.
  unfold broadcast_to. cbn [shape data length]. rewrite Nat.sub_0_r, app_nil_r.
  apply expand_scalar.
Qed.

Lemma mapM_zip_replicate_r (f : elem → elem → option elem) (e : elem) d :
  mapM (λ '(p, q), f p q) (zip d (replicate (length d) e)) = mapM (λ c, f c e) d.
Proof. induction d as [|c d IH]; [done|]. cbn. by rewrite IH. Qed.

Lemma mapM_zip_replicate_l (f : elem → elem → option elem) (e : elem) d :
  mapM (λ '(p, q), f p q) (zip (replicate (length d) e) d) = mapM (λ c, f e c) d.
Proof. induction d as [|c d IH]; [done|]. cbn. by rewrite IH. Qed.

(** numpy's operator between an array and a scalar, on either side, and
    between two arrays of one shape. *)
Lemma binop_scalar_r f (a : ndarray) (e : elem) :
  length (data a) = size (shape a) → shape a ≠ [] →
  binop f (Arr a) (Scal e)
  = match mapM (λ c, f c e) (data a) with
    | Some d => inr (Arr {| shape := shape a; data := d |})
    | None => inl (TypeError "unsupported operand type(s)")
    end.
Proof.
  intros Ha Hs. unfold binop. cbn [as_array shape].
  rewrite broadcast_shapes_nil_r, broadcast_to_same, broadcast_to_scalar by done.
  rewrite <- Ha, mapM_zip_replicate_r.
  destruct (mapM _ (data a)) as [d|]; [|done]. by destruct (shape a).
Qed.

Lemma binop_scalar_l f (e : elem) (b : ndarray) :
  length (data b) = size (shape b) → shape b ≠ [] →
  binop f (Scal e) (Arr b)
  = match mapM (λ c, f e c) (data b) with
    | Some d => inr (Arr {| shape := shape b; data := d |})
    | None => inl (TypeError "unsupported operand type(s)")
    end.
Proof.
  intros Hb Hs. unfold binop. cbn [as_array shape].
  rewrite broadcast_shapes_nil_l, broadcast_to_same, broadcast_to_scalar by done.
  rewrite <- Hb, mapM_zip_replicate_l.
  destruct (mapM _ (data b)) as [d|]; [|done]. by destruct (shape b).
Qed.

Lemma binop_same f (a b : ndarray) :
  length (data a) = size (shape a) → length (data b) = size (shape b) →
  shape b = shape a → shape a ≠ [] →
  binop f (Arr a) (Arr b)
  = match mapM (λ '(p, q), f p q) (zip (data a) (data b)) with
    | Some d => inr (Arr {| shape := shape a; data := d |})
    | None => inl (TypeError "unsupported operand type(s)")
    end.
Proof.
  intros Ha Hb Hab Hs. unfold binop. cbn [as_array].
  rewrite Hab, broadcast_shapes_refl, broadcast_to_same by done.
  rewrite <- Hab, broadcast_to_same by done.
  destruct (mapM _ _) as [d|]; [|done]. rewrite Hab. by destruct (shape a).
Qed.
End elementwise.

Section wrapper_use.
Context `{Scalars}.
Import Np PaillierTensor Wrapped.
Implicit Types (h : heap obj) (d : list elem) (s : list nat).

(** X11.  Arithmetic with a plaintext scalar is elementwise and keeps the
    shape: on an encrypted array with at least one dimension, [add], [sub]
    and [mul] with an [int] or a [float] [x] return a wrapper over the array
    of the [c + x], of the [c + (-1 * x)], of the [c * x], for [c] the
    elements in order; if one of these raises, the call raises. *)
Theorem scalar_arithmetic_is_elementwise op a A b fl x h :
  is_wrapper h a A → denotes h b (Number fl x) →
  length (data A) = size (shape A) → shape A ≠ [] →
  observe (method op a b h)
  = match mapM (match op with
                | Add => λ c, elem_add c (of_num x)
                | Sub => λ c, elem_add c (of_num (num_mul num_neg_one x))
                | Mul => λ c, elem_mul c (of_num x)
                end) (data A) with
    | Some d => inr (Some {| shape := shape A; data := d |})
    | None => inl (TypeError "unsupported operand type(s)")
    end.
Proof.
  intros Ha Hb HA Hs.
  rewrite (observe_returns h _ _ (method_run op a A b (Number fl x) h Ha Hb)).
  destruct op; cbn [compute minus operand_np]; rewrite binop_scalar_r by done;
    by destruct (mapM _ (data A)).
Qed.

(** X12.  Arithmetic with a tensor or an encrypted array of the same shape
    is elementwise, position by position, and keeps the shape, on arrays
    with at least one dimension; for [sub] the second operand's elements are
    first multiplied by -1 from the left; if one of these operations raises,
    the call raises. *)
Theorem same_shape_arithmetic_is_elementwise op a A b B h :
  is_wrapper h a A → denotes h b (Array B) →
  length (data A) = size (shape A) → length (data B) = size (shape B) →
  shape B = shape A → shape A ≠ [] →
  observe (method op a b h)
  = match (match op with
           | Sub => mapM (λ c, elem_mul (of_num num_neg_one) c) (data B)
           | _ => Some (data B)
           end) with
    | Some db =>
        match mapM (λ '(p, q), match op with Mul => elem_mul p q | _ => elem_add p q end)
                   (zip (data A) db) with
        | Some d => inr (Some {| shape := shape A; data := d |})
        | None => inl (TypeError "unsupported operand type(s)")
        end
    | None => inl (TypeError "unsupported operand type(s)")
    end.
Proof.
  intros Ha Hb HA HB Hsame Hs.
  rewrite (observe_returns h _ _ (method_run op a A b (Array B) h Ha Hb)).
  destruct op; cbn [compute minus operand_np].
  - rewrite binop_same by done. by destruct (mapM _ _).
  - rewrite binop_scalar_l by (done || by rewrite Hsame).
    destruct (mapM _ (data B)) as [db|] eqn:Hdb; [|done].
    rewrite (binop_same _ A {| shape := shape B; data := db |});
      [cbn [data]; by destruct (mapM _ (zip _ _))|done| |done..].
    cbn. by rewrite <- (length_mapM _ _ _ Hdb).
  - rewrite binop_same by done. by destruct (mapM _ _).
Qed.

(** X13.  The constructor does not copy an array it is given: the new
    wrapper is over that very object, and [numpy()] hands the same object
    back. *)
Theorem wrapper_shares_its_array h arr (a : ndarray) :
  h !! arr = Some (ONdarray a) →
  (w ← __init__ (PyRef arr); numpy w) h = (h ++ [OPaillierTensor arr], inr (PyRef arr))
  ∧ is_wrapper (h ++ [OPaillierTensor arr]) (PyRef (length h)) a.
Proof.
  intros Harr. split.
  - rewrite bind_run, (init_run _ _ _ Harr). unfold numpy.
    apply attr_run, lookup_new.
  - exists (length h), arr. split_and!; [done|apply lookup_new|by apply lookup_app_l_Some].
Qed.

(** X14.  The constructor accepts a list or an array and nothing else: any
    other value, be it a number, a tensor or another wrapper, raises
    [TypeError] with the name of its type, and nothing is allocated. *)
Theorem constructor_rejects v ty h :
  type v h = (h, inr ty) → ty ∉ [Tlist; Tndarray] →
  __init__ v h = (h, inl (TypeError (repr ty ++ " is not supported."))).
Proof.
  intros Hty Hno. unfold __init__. rewrite bind_run, Hty.
  rewrite !decide_False; [done|intros ->; apply Hno; rewrite !elem_of_cons; tauto..].
Qed.

(** X15.  From a flat list the constructor makes a new one-dimensional array
    of the elements in order and a wrapper over it; [numpy()] gives that
    array. *)
Theorem wrapper_from_flat_list (es : list elem) h :
  (w ← __init__ (PyList (Item <$> es)); numpy w) h
  = (h ++ [ONdarray {| shape := [length es]; data := es |}; OPaillierTensor (length h)],
     inr (PyRef (length h))).
Proof.
  assert (Hflat : forallb (has_shape []) (Item <$> es) = true ∧ flat_map flatten (Item <$> es) = es).
  { induction es as [|e es [IH1 IH2]]; [done|]. split; [exact IH1|].
    change (e :: flat_map flatten (Item <$> es) = e :: es). by rewrite IH2. }
  assert (Harr : array (Item <$> es) = inr {| shape := [length es]; data := es |}).
  { unfold array.
    assert (Hs : nested_shape (Nested (Item <$> es)) = [length es]).
    { cbn. rewrite length_fmap. by destruct es. }
    assert (Hhs : has_shape [length es] (Nested (Item <$> es)) = true).
    { change (bool_decide (length (Item <$> es) = length es)
              && forallb (has_shape []) (Item <$> es) = true).
      rewrite bool_decide_eq_true_2 by apply length_fmap. exact (proj1 Hflat). }
    assert (Hfl : flatten (Nested (Item <$> es)) = es) by exact (proj2 Hflat).
    by rewrite Hs, Hhs, Hfl. }
  rewrite bind_run. unfold __init__ at 1. rewrite bind_run. cbn [type mret M_ret].
  rewrite decide_True, Harr, bind_run by done. unfold alloc at 1.
  rewrite fmap_run. unfold alloc at 1. unfold numpy.
  rewrite (attr_run _ _ (length h)) by apply lookup_new.
  by rewrite <- app_assoc.
Qed.
End wrapper_use.

Section wrapper_dispatch.
Context `{Scalars}.
Import Np PaillierTensor Wrapped.
Implicit Types (h : heap obj).

(** X16.  [__torch_function__] declines what was not registered: for a torch
    function other than [torch.add], [torch.sub], [torch.mul], or as soon as
    one of the types is neither a tensor nor a wrapper, it returns
    [NotImplemented]; it calls no override, raises nothing and allocates
    nothing, whatever the arguments are. *)
Theorem torch_function_declines func (types : list pytype) (args : list pyval) h :
  func ∉ [torch_add; torch_sub; torch_mul]
  ∨ (∃ ty, ty ∈ types ∧ ty ∉ [TTensor; TPaillierTensor]) →
  __torch_function__ func types args h = (h, inr NotImplemented).
Proof.
  intros Hwhy. unfold __torch_function__.
  destruct Hwhy as [Hfunc|(ty & Hty & Hno)].
  - replace (HANDLED_FUNCTIONS func) with (@None (pyval → pyval → Store.M obj pyval));
      [done|].
    unfold HANDLED_FUNCTIONS, implements.
    rewrite !decide_False; [done|intros ->; apply Hfunc; rewrite !elem_of_cons; tauto..].
  - destruct (HANDLED_FUNCTIONS func) as [impl|]; [|done].
    replace (forallb issubclass types) with false; [done|].
    symmetry. apply not_true_is_false. intros Hall.
    rewrite forallb_forall in Hall. apply Hno.
    apply list_elem_of_In, Hall in Hty. by apply bool_decide_eq_true in Hty.
Qed.

(** X17.  [add], [sub] and [mul] look at the type of the second operand
    before anything else: an operand that is not an [int], a [float], a
    [torch.Tensor] or a [PaillierTensor] (a numpy array, a list, a ciphertext
    ...) raises [NotImplementedError] with the name of its type, whatever the
    first argument is, and nothing is allocated.  Through the operators [+],
    [-], [*] of a wrapper the method is reached only if torch parses the
    operand: a numpy array or a list never is, and the call raises the
    [TypeError] of torch instead, the store untouched as well; an operand
    that torch takes for a number meets the error of the method. *)
Theorem method_rejects_operand op input other ty h :
  type other h = (h, inr ty) → ty ∉ [Tint; Tfloat; TTensor; TPaillierTensor] →
  method op input other h = (h, inl (NotImplementedError (repr ty ++ " is not supported.")))
  ∧ ∀ A, is_wrapper h input A →
      ∃ ok, parses other h = (h, inr ok)
        ∧ (ty ∈ [Tlist; Tndarray] → ok = false)
        ∧ if ok then operator op input other h = method op input other h
          else ∃ msg, operator op input other h = (h, inl (TypeError msg)).
Proof.
  intros Hty Hno.
  assert (Hm : method op input other h
               = (h, inl (NotImplementedError (repr ty ++ " is not supported.")))).
  { destruct op; cbn [method]; unfold add, sub, mul; rewrite bind_run, Hty;
      rewrite !bool_decide_eq_false_2;
      first [done | intros Hin; apply Hno; revert Hin; rewrite !elem_of_cons; tauto]. }
  split; [done|]. intros A (l & arr & -> & Hl & Harr).
  assert (Hparse : ∃ ok, parses other h = (h, inr ok)
                         ∧ (ty ∈ [Tlist; Tndarray] → ok = false)).
  { destruct other as [x|x|xs|l'|e|]; cbn in Hty.
    - injection Hty as <-. exfalso. apply Hno. rewrite !elem_of_cons. tauto.
    - injection Hty as <-. exfalso. apply Hno. rewrite !elem_of_cons. tauto.
    - by exists false.
    - rewrite bind_run in Hty. unfold read in Hty. unfold parses. rewrite bind_run.
      unfold read. destruct (h !! l') as [[a|a|arr']|]; [| | |done]; injection Hty as <-.
      + by exists false.
      + exfalso. apply Hno. rewrite !elem_of_cons. tauto.
      + exfalso. apply Hno. rewrite !elem_of_cons. tauto.
    - injection Hty as <-. exists (is_number e). split; [done|].
      rewrite !elem_of_cons, elem_of_nil. by intros [[=]|[[=]|[]]].
    - by exists false. }
  destruct Hparse as (ok & Hok & Hkind). exists ok. split_and!; [done..|].
  assert (Hcall : ∀ f, HANDLED_FUNCTIONS f = Some (method op) →
            if ok then torch_call f [PyRef l; other] h = method op (PyRef l) other h
            else ∃ msg, torch_call f [PyRef l; other] h = (h, inl (TypeError msg))).
  { intros f Hf. unfold torch_call.
    rewrite bind_run, (parses_wrapper_run _ _ _ _ _ Hl Hok). destruct ok; cbn [forallb id andb].
    - assert (Htys : mapM type [PyRef l; other] h = (h, inr [TPaillierTensor; ty])).
      { cbn [mapM]. rewrite bind_run, (type_ref_run _ _ _ Hl), bind_run, bind_run, Hty.
        done. }
      rewrite bind_run, Htys. unfold __torch_function__.
      by rewrite Hf, only_wrappers_pass, bind_run, Hm.
    - by eexists. }
  destruct op; by apply Hcall.
Qed.

(** X18.  What the arithmetic returns is an encrypted array like any other:
    a second operation on it runs as on an array of the store, so that a
    chain [(a op1 b) op2 c] gives the error of the first step, or else the
    outcome the second step has on the array the first step made; the
    operands [b] and [c] may be scalars, tensors or encrypted arrays. *)
Theorem arithmetic_composes op1 op2 a A b B c C h :
  is_wrapper h a A → denotes h b B → denotes h c C →
  observe ((r ← method op1 a b; method op2 r c) h)
  = match compute op1 A B with
    | inr R =>
        match compute op2 R C with
        | inr res => inr (Some res)
        | inl e => inl e
        end
    | inl e => inl e
    end.
Proof.
  intros Ha Hb Hc. rewrite bind_run.
  destruct (method_run op1 a A b B h Ha Hb) as (ext & Hh & Hr).
  destruct (method op1 a b h) as [h1 r1]. cbn in Hh, Hr. subst h1.
  destruct (compute op1 A B) as [e|R]; [by subst r1|].
  destruct Hr as (l & -> & _ & Hw).
  by rewrite (observe_returns (h ++ ext) _ _
    (method_run op2 (PyRef l) R c C (h ++ ext) Hw (denotes_app _ _ _ _ Hc))).
Qed.

(** X19.  Without a key, [tensor()] reads no ciphertext: it returns a new
    tensor of zeros of the shape of the encrypted array. *)
Theorem tensor_without_key a A h :
  is_wrapper h a A →
  tensor a None h
  = (h ++ [OTensor {| shape := shape A;
                      data := replicate (size (shape A)) (of_num num_zero) |}],
     inr (PyRef (length h))).
Proof.
  intros (l & arr & -> & Hl & Harr). unfold tensor.
  by rewrite bind_run, (attr_run _ _ _ Hl), bind_run, (as_npval_ref_run _ _ _ Harr).
Qed.

(** X20.  With a key, [tensor(sk)] is [decypt(sk)]; on an encrypted array
    with elements, all of which the key decrypts, both return a new tensor
    of the same shape holding the decrypted numbers in order, and the
    encrypted array is still there. *)
Theorem decypt_is_elementwise a A sk (xs : list num) h :
  is_wrapper h a A → data A ≠ [] →
  Forall2 (λ c x, decrypt2float sk c = inr x) (data A) xs →
  decypt a sk h
  = (h ++ [OTensor {| shape := shape A; data := of_num <$> xs |}], inr (PyRef (length h)))
  ∧ tensor a (Some sk) h = decypt a sk h
  ∧ is_wrapper (h ++ [OTensor {| shape := shape A; data := of_num <$> xs |}]) a A.
Proof.
  intros Ha Hne Hdec. split_and!; [|done|by apply is_wrapper_app].
  destruct Ha as (l & arr & -> & Hl & Harr). unfold decypt.
  rewrite bind_run, (attr_run _ _ _ Hl), bind_run, (as_npval_ref_run _ _ _ Harr).
  cbn [as_array]. rewrite decide_False by done.
  change (of_num <$> xs) with (reverse [] ++ (of_num <$> xs)).
  generalize (@nil elem). revert Hdec. generalize (data A). clear.
  intros es Hdec. induction Hdec as [|c x es xs Hc _ IH]; intros acc.
  - by rewrite app_nil_r.
  - rewrite Hc, IH, reverse_cons, <- app_assoc. done.
Qed.

(** X21.  [decypt] stops at the first element the key does not decrypt: it
    raises the error of that element, and no tensor is allocated. *)
Theorem decypt_raises_first_error a A sk (good rest : list elem) (c : elem) err h :
  is_wrapper h a A → data A = good ++ c :: rest →
  Forall (λ c', ∃ x, decrypt2float sk c' = inr x) good →
  decrypt2float sk c = inl err →
  decypt a sk h = (h, inl err).
Proof.
  intros (l & arr & -> & Hl & Harr) Hdata Hgood Hbad. unfold decypt.
  rewrite bind_run, (attr_run _ _ _ Hl), bind_run, (as_npval_ref_run _ _ _ Harr).
  cbn [as_array]. rewrite decide_False by (rewrite Hdata; by destruct good).
  rewrite Hdata. generalize (@nil elem). clear -Hgood Hbad.
  induction Hgood as [|c' good [x Hx] _ IH]; intros acc.
  - cbn. by rewrite Hbad.
  - cbn. rewrite Hx. apply IH.
Qed.
End wrapper_dispatch.

(** ** The further properties on inputs *)

Module Rounds.
Import Concrete Samples.
#[local] Existing Instance Q_tensors.
#[local] Existing Instance descent.

Lemma upload_gradients_truncates_witness :
  ∃ gs, FedAvgClient.upload_gradients lopsided trained = (trained, inr gs)
        ∧ length gs = length [1 # 1; 2 # 1]%Q `min` length [3 # 1]%Q
        ∧ ∀ i p q, [1 # 1; 2 # 1]%Q !! i = Some p → [3 # 1]%Q !! i = Some q →
            gs !! i = Some (tdiv (tsub q p) (FedAvgClient.lr lopsided)).
Proof.
  apply (@upload_gradients_truncates Q_tensors descent lopsided trained
           [1 # 1; 2 # 1]%Q [3 # 1]%Q); reflexivity.
Defined.

Lemma gradients_vanish_after_download_witness :
  ∃ vs, values h2 (Model.parameters (FedAvgClient.model (ready "sgd" false))) = Some vs
        ∧ FedAvgClient.upload_gradients (ready "sgd" false) h2
          = (h2, inr ((λ v, tdiv (tsub v v) (FedAvgClient.lr (built "sgd" false))) <$> vs)).
Proof.
  apply (@gradients_vanish_after_download Q_tensors descent (built "sgd" false)
           (@StateDict Q_tensors S1) h1 h2 (ready "sgd" false)).
  - apply OnNet.net_wf. cbn. lia.
  - apply OnNet.first_download_run. by left.
Defined.

Lemma gradients_after_training_witness :
  ∃ k vs cur,
    write_all [(0, (5 # 1)%Q)] h2 = (k, inr ())
    ∧ values h2 (Model.parameters (FedAvgClient.model (built "sgd" false))) = Some vs
    ∧ values k (FedAvgClient.prev_parameters (ready "sgd" false)) = Some vs
    ∧ values k (Model.parameters (FedAvgClient.model (built "sgd" false))) = Some cur
    ∧ FedAvgClient.upload_gradients (ready "sgd" false) k
      = (k, inr (zip_with (λ q p, tdiv (tsub q p) (FedAvgClient.lr (built "sgd" false)))
                   vs cur)).
Proof.
  apply (@gradients_after_training Q_tensors descent (built "sgd" false)
           (@StateDict Q_tensors S1) h1 h2 (ready "sgd" false) [(0, (5 # 1)%Q)]).
  - apply OnNet.net_wf. cbn. lia.
  - apply OnNet.first_download_run. by left.
  - repeat constructor.
Defined.

Lemma download_as_specified_when_untrained_witness :
  FedAvgClient.download (ready "sgd" false) (TensorList [1 # 1; 1 # 1]%Q) h2
  = Specified.download (ready "sgd" false) (TensorList [1 # 1; 1 # 1]%Q) h2.
Proof.
  apply (@download_as_specified_when_untrained Q_tensors descent (ready "sgd" false)
           (@TensorList Q_tensors [1 # 1; 1 # 1]%Q) h2 [1 # 1; 2 # 1]%Q); reflexivity.
Defined.

Lemma init_takes_a_separate_snapshot_witness :
  ∃ vs, h1 = h0 ++ vs
        ∧ values h0 (Model.parameters net) = Some vs
        ∧ FedAvgClient.prev_parameters (built "sgd" false)
          = seq (length h0) (length (Model.parameters net))
        ∧ values h1 (FedAvgClient.prev_parameters (built "sgd" false)) = Some vs
        ∧ (∀ l, l ∈ FedAvgClient.prev_parameters (built "sgd" false) →
                l ∉ Model.parameters net)
        ∧ FedAvgClient.initialized (built "sgd" false) = false
        ∧ FedAvgClient.upload_gradients (built "sgd" false) h1
          = (h1, inr ((λ v, tdiv (tsub v v) (1 # 10)%Q) <$> vs)).
Proof.
  apply (@init_takes_a_separate_snapshot Q_tensors descent net 0 (1 # 10)%Q true "sgd"
           false [] "cpu" h0 h1 (built "sgd" false)).
  - apply OnNet.net_wf. cbn. lia.
  - reflexivity.
Defined.

Lemma mpi_init_takes_a_separate_snapshot_witness :
  ∃ vs self,
    MPIFedAVGClient.__init__ (MPIFedAVGClient.comm mpi) net 1 (1 # 10)%Q "cpu" h0
    = (h0 ++ vs, inr self)
    ∧ values h0 (Model.parameters net) = Some vs
    ∧ MPIFedAVGClient.prev_parameters self = seq (length h0) (length (Model.parameters net))
    ∧ values (h0 ++ vs) (MPIFedAVGClient.prev_parameters self) = Some vs
    ∧ (∀ l, l ∈ MPIFedAVGClient.prev_parameters self → l ∉ Model.parameters net)
    ∧ MPIFedAVGClient.comm self = MPIFedAVGClient.comm mpi
    ∧ MPIFedAVGClient.gradients self = None.
Proof.
  apply (@mpi_init_takes_a_separate_snapshot Q_tensors (MPIFedAVGClient.comm mpi) net 1
           (1 # 10)%Q "cpu" h0).
  apply OnNet.net_wf. cbn. lia.
Defined.

Lemma mpi_download_overwrites_witness :
  ∃ h' self',
    MPIFedAVGClient.download mpi_short h1 = (h', inr self')
    ∧ length h' = length h1
    ∧ MPIFedAVGClient.comm self' = {| Comm.sent := []; Comm.inbox := [] |}
    ∧ (∀ i l p v, Model.parameters (MPIFedAVGClient.model mpi_short) !! i = Some l →
         [1 # 2; 3 # 1]%Q !! i = Some p → [7 # 1]%Q !! i = Some v →
         h' !! l = reshape_to v p (MPIFedAVGClient.device mpi_short))
    ∧ (∀ i l, Model.parameters (MPIFedAVGClient.model mpi_short) !! i = Some l →
         length [7 # 1]%Q ≤ i → h' !! l = h1 !! l)
    ∧ (∀ l, l ∉ Model.parameters (MPIFedAVGClient.model mpi_short) → h' !! l = h1 !! l).
Proof.
  apply (@mpi_download_overwrites Q_tensors mpi_short h1 [7 # 1]%Q
           {| Comm.sent := []; Comm.inbox := [] |} [1 # 2; 3 # 1]%Q).
  - reflexivity.
  - exact (proj1 (proj2 (OnNet.net_wf h1 ltac:(cbn; lia)))).
  - reflexivity.
  - intros i p v _ _. by eexists.
Defined.

Lemma mpi_gradients_against_stale_snapshot_witness :
  ∃ h' self' self'',
    MPIFedAVGClient.download mpi h1 = (h', inr self')
    ∧ values h' (Model.parameters (MPIFedAVGClient.model mpi)) = Some [7 # 1; 8 # 1]%Q
    ∧ MPIFedAVGClient.upload_gradient self' 0 h' = (h', inr self'')
    ∧ MPIFedAVGClient.gradients self''
      = Some (zip_with (λ q w, tdiv (tsub q w) (MPIFedAVGClient.lr mpi))
                [1 # 2; 3 # 1]%Q [7 # 1; 8 # 1]%Q).
Proof.
  apply (@mpi_gradients_against_stale_snapshot Q_tensors mpi 0 h1 [7 # 1; 8 # 1]%Q
           {| Comm.sent := []; Comm.inbox := [] |} [1 # 2; 3 # 1]%Q [1 # 2; 3 # 1]%Q
           [7 # 1; 8 # 1]%Q).
  - reflexivity.
  - exact (proj1 (proj2 (OnNet.net_wf h1 ltac:(cbn; lia)))).
  - reflexivity.
  - reflexivity.
  - intros l Hl Hl'. cbn in Hl, Hl'.
    rewrite !elem_of_cons, elem_of_nil in Hl. rewrite !elem_of_cons, elem_of_nil in Hl'. lia.
  - repeat constructor.
Defined.
End Rounds.

Module VectorRounds.
Import Concrete Samples.
#[local] Existing Instance vec_tensors.

Lemma mpi_download_stops_midway_witness :
  ∃ h', MPIFedAVGClient.download mpi_vec hv
        = (h', inl (RuntimeError "shape is invalid for input"))
        ∧ (∀ i l p' v', i < 1 →
             Model.parameters (MPIFedAVGClient.model mpi_vec) !! i = Some l →
             hv !! i = Some p' → [[5 # 1; 6 # 1]; [7 # 1; 8 # 1]]%Q !! i = Some v' →
             h' !! l = reshape_to v' p' (MPIFedAVGClient.device mpi_vec))
        ∧ (∀ i l, 1 ≤ i →
             Model.parameters (MPIFedAVGClient.model mpi_vec) !! i = Some l →
             h' !! l = hv !! l).
Proof.
  apply (@mpi_download_stops_midway vec_tensors mpi_vec hv
           [[5 # 1; 6 # 1]; [7 # 1; 8 # 1]]%Q {| Comm.sent := []; Comm.inbox := [] |}
           hv 1 [3 # 1]%Q [7 # 1; 8 # 1]%Q).
  - reflexivity.
  - exact (proj1 (proj2 (OnNet.net_wf Concrete.h1 ltac:(cbn; lia)))).
  - reflexivity.
  - intros i p' v' Hi Hp Hv. destruct i as [|i]; [|lia].
    injection Hp as <-. injection Hv as <-. by eexists.
  - reflexivity.
  - reflexivity.
  - reflexivity.
Defined.
End VectorRounds.

Module ArraysInUse.
Import Np PaillierTensor Wrapped Concrete Samples.
#[local] Existing Instance Z_scalars.

Lemma three_wrapped : is_wrapper store1 (PyRef 1) three.
Proof. by exists 1, 0. Qed.

Lemma tens_denoted : denotes store1 (PyRef 2) (Array tens).
Proof. by apply denotes_tensor. Qed.

Lemma scalar_arithmetic_is_elementwise_witness :
  observe (method Sub (PyRef 1) (PyInt 4%Z) store1)
  = match mapM (λ c, elem_add c (of_num (num_mul num_neg_one 4%Z))) (data three) with
    | Some d => inr (Some {| shape := shape three; data := d |})
    | None => inl (TypeError "unsupported operand type(s)")
    end.
Proof.
  apply (@scalar_arithmetic_is_elementwise Z_scalars Sub (PyRef 1) three
           (@PyInt Z_scalars 4%Z) false 4%Z store1).
  - exact three_wrapped.
  - constructor.
  - reflexivity.
  - discriminate.
Defined.

Lemma same_shape_arithmetic_is_elementwise_witness :
  observe (method Sub (PyRef 1) (PyRef 2) store1)
  = match mapM (λ c, elem_mul (of_num num_neg_one) c) (data tens) with
    | Some db =>
        match mapM (λ '(p, q), elem_add p q) (zip (data three) db) with
        | Some d => inr (Some {| shape := shape three; data := d |})
        | None => inl (TypeError "unsupported operand type(s)")
        end
    | None => inl (TypeError "unsupported operand type(s)")
    end.
Proof.
  apply (@same_shape_arithmetic_is_elementwise Z_scalars Sub (PyRef 1) three
           (PyRef 2) tens store1).
  - exact three_wrapped.
  - exact tens_denoted.
  - reflexivity.
  - reflexivity.
  - reflexivity.
  - discriminate.
Defined.

Lemma wrapper_shares_its_array_witness :
  (w ← __init__ (PyRef 0); numpy w) store0 = (store0 ++ [OPaillierTensor 0], inr (PyRef 0))
  ∧ is_wrapper (store0 ++ [OPaillierTensor 0]) (PyRef (length store0)) one.
Proof.
  apply (@wrapper_shares_its_array Z_scalars store0 0 one). reflexivity.
Defined.

Lemma constructor_rejects_witness :
  __init__ (PyRef 2) store0
  = (store0, inl (TypeError (repr TTensor ++ " is not supported."))).
Proof.
  apply (@constructor_rejects Z_scalars (PyRef 2) TTensor store0).
  - reflexivity.
  - rewrite !elem_of_cons, elem_of_nil. intros [[=]|[[=]|[]]].
Defined.

Lemma torch_function_declines_witness :
  __torch_function__ (torch_other "matmul") [TPaillierTensor] [PyRef 1; PyRef 2] store0
  = (store0, inr NotImplemented).
Proof.
  apply (@torch_function_declines Z_scalars (torch_other "matmul") [TPaillierTensor]
           [PyRef 1; PyRef 2] store0).
  left. rewrite !elem_of_cons, elem_of_nil. intros [[=]|[[=]|[[=]|[]]]].
Defined.

Lemma method_rejects_operand_witness :
  method Add (PyRef 1) (PyRef 0) store0
  = (store0, inl (NotImplementedError (repr Tndarray ++ " is not supported.")))
  ∧ ∃ msg, operator Add (PyRef 1) (PyRef 0) store0 = (store0, inl (TypeError msg)).
Proof.
  destruct (@method_rejects_operand Z_scalars Add (PyRef 1) (PyRef 0) Tndarray store0)
    as [Hmethod Hoperator].
  - reflexivity.
  - rewrite !elem_of_cons, elem_of_nil. intros [[=]|[[=]|[[=]|[[=]|[]]]]].
  - split; [exact Hmethod|].
    destruct (Hoperator one OnArrays.one_wrapped) as (ok & _ & Hkind & Hrun).
    rewrite Hkind in Hrun; [exact Hrun|]. rewrite !elem_of_cons. tauto.
Defined.

Lemma arithmetic_composes_witness :
  observe ((r ← method Mul (PyRef 1) (PyInt 2%Z); method Add r (PyRef 2)) store0)
  = match compute Mul one (Number false 2%Z) with
    | inr R =>
        match compute Add R (Array three) with
        | inr res => inr (Some res)
        | inl e => inl e
        end
    | inl e => inl e
    end.
Proof.
  apply (@arithmetic_composes Z_scalars Mul Add (PyRef 1) one (@PyInt Z_scalars 2%Z)
           (@Number Z_scalars false 2%Z) (PyRef 2) (Array three) store0).
  - exact OnArrays.one_wrapped.
  - constructor.
  - exact OnArrays.three_denoted.
Defined.

Lemma tensor_without_key_witness :
  tensor (PyRef 1) None store0
  = (store0 ++ [OTensor {| shape := shape one;
                           data := replicate (size (shape one)) (of_num num_zero) |}],
     inr (PyRef (length store0))).
Proof.
  apply (@tensor_without_key Z_scalars (PyRef 1) one store0).
  exact OnArrays.one_wrapped.
Defined.

Lemma decypt_is_elementwise_witness :
  decypt (PyRef 1) () store1
  = (store1 ++ [OTensor {| shape := shape three; data := of_num <$> [1; 2; 3]%Z |}],
     inr (PyRef (length store1)))
  ∧ tensor (PyRef 1) (Some ()) store1 = decypt (PyRef 1) () store1
  ∧ is_wrapper (store1 ++ [OTensor {| shape := shape three;
                                      data := of_num <$> [1; 2; 3]%Z |}])
      (PyRef 1) three.
Proof.
  apply (@decypt_is_elementwise Z_scalars (PyRef 1) three () [1; 2; 3]%Z store1).
  - exact three_wrapped.
  - discriminate.
  - repeat constructor.
Defined.
End ArraysInUse.

Module PickyKey.
Import Np PaillierTensor Wrapped Samples.
#[local] Existing Instance picky_scalars.

Lemma decypt_raises_first_error_witness :
  decypt (PyRef 1) () store2 = (store2, inl (ValueError "negative ciphertext")).
Proof.
  apply (@decypt_raises_first_error picky_scalars (PyRef 1) mixed tt
           (1%Z :: nil) (3%Z :: nil) (-2)%Z (ValueError "negative ciphertext") store2).
  - by exists 1, 0.
  - reflexivity.
  - repeat constructor. by exists 1%Z.
  - reflexivity.
Defined.
End PickyKey.
